(** * interval_map: a shallow embedding of [Interval_map_solution.cpp]

    The class template [interval_map<K, V>] keeps a value [m_valBegin] and a
    [std::map<K, V>] of boundaries.  The embedding follows the instantiation
    exercised by the repository, [interval_map<int, char>]: keys are integers
    (only ever compared with [<], so no arithmetic and no wrap-around is
    involved), and values are any type with a boolean equality, which is all
    [assign] asks of [V].  The argument [val] is read as one fixed value
    throughout a call: forwarding it into the map does not change it, as for
    [char] and for the lvalue arguments the tests pass.

    A [std::map] is modelled by the list of its entries in ascending key
    order.  An iterator is modelled by the key of the node it is attached to
    ([None] for [end()]): iterators of a [std::map] stay attached to their node
    across insertions and erasures of other nodes, and keys are unique. *)

From Stdlib Require Import ZArith List Bool Lia Ascii Sorted.
Import ListNotations.
Open Scope Z_scope.

(** ** Requirements on the value type: [operator==] *)

Class EqComparable (V : Type) := {
  veqb : V -> V -> bool;
  veqb_spec : forall a b : V, veqb a b = true <-> a = b
}.

#[export] Instance char_EqComparable : EqComparable ascii :=
  {| veqb := Ascii.eqb; veqb_spec := Ascii.eqb_eq |}.

#[export] Instance Z_EqComparable : EqComparable Z :=
  {| veqb := Z.eqb; veqb_spec := Z.eqb_eq |}.

(** ** The ordered boundary store: [std::map<K, V>] *)

Definition K := Z.

(** An entry [(k, x)] of the map, and the map as the list of its entries. *)
Abbreviation entry V := (K * V)%type (only parsing).
Abbreviation store V := (list (K * V)) (only parsing).

Section Store.
Context {V : Type}.

Definition iterator : Type := option K.

(** [std::map] keeps its keys strictly increasing. *)
Definition keys (s : store V) : list K := map fst s.
Definition well_formed (s : store V) : Prop := StronglySorted Z.lt (keys s).

Definition begin_ (s : store V) : iterator := option_map fst (hd_error s).
Definition end_ : iterator := None.
Definition empty (s : store V) : bool := match s with [] => true | _ => false end.
Definition map_size (s : store V) : nat := length s.

(** [*it] for an iterator attached to the node of key [k]. *)
Fixpoint deref (k : K) (s : store V) : option (entry V) :=
  match s with
  | [] => None
  | (k', x) :: r => if k' =? k then Some (k', x) else deref k r
  end.

(** [m.lower_bound(k)]: the entries whose key is not less than [k]. *)
Fixpoint lower_bound (k : K) (s : store V) : store V :=
  match s with
  | [] => []
  | (k', x) :: r => if k' <? k then lower_bound k r else s
  end.

(** [m.upper_bound(k)]: the entries whose key is greater than [k]. *)
Fixpoint upper_bound (k : K) (s : store V) : store V :=
  match s with
  | [] => []
  | (k', x) :: r => if k <? k' then s else upper_bound k r
  end.

(** [std::next(it)] dereferenced: the first entry after the node of key [k]. *)
Definition next (k : K) (s : store V) : option (entry V) := hd_error (upper_bound k s).

(** [std::prev(it)] dereferenced: the last entry before the node of key [k]. *)
Fixpoint prev (k : K) (s : store V) : option (entry V) :=
  match s with
  | [] => None
  | (k', x) :: r =>
      if k' <? k then
        match prev k r with
        | Some e => Some e
        | None => Some (k', x)
        end
      else None
  end.

(** [*m.rbegin()], which is also [*std::prev(m.end())]. *)
Definition rbegin (s : store V) : option (entry V) := hd_error (rev s).

(** [*--it] for any iterator, [end()] included. *)
Definition prev_it (it : iterator) (s : store V) : option (entry V) :=
  match it with
  | Some k => prev k s
  | None => rbegin s
  end.

(** [it1 == it2] *)
Definition it_eqb (it1 it2 : iterator) : bool :=
  match it1, it2 with
  | Some k1, Some k2 => k1 =? k2
  | None, None => true
  | _, _ => false
  end.

(** [m.insert_or_assign(k, x)] and [m[k] = x]. *)
Fixpoint insert_or_assign (k : K) (x : V) (s : store V) : store V :=
  match s with
  | [] => [(k, x)]
  | (k', x') :: r =>
      if k <? k' then (k, x) :: s
      else if k' <? k then (k', x') :: insert_or_assign k x r
      else (k, x) :: r
  end.

(** [m.erase(it)] for an iterator attached to the node of key [k]. *)
Fixpoint erase (k : K) (s : store V) : store V :=
  match s with
  | [] => []
  | (k', x) :: r => if k' =? k then r else (k', x) :: erase k r
  end.
End Store.

(** ** The container *)

Record interval_map (V : Type) : Type := {
  m_valBegin : V;
  m_map : store V
}.
Arguments m_valBegin {V} _.
Arguments m_map {V} _.

(** Undefined behaviour the C++ source can run into; the embedding records it
    instead of hiding it. *)
Inductive fault : Type :=
| DerefEnd      (* [what_after->second] with [what_after == m_map.end()] *)
| DoubleErase.  (* [m_map.erase(it)] on a node that was already erased *)

Section IntervalMap.
Context {V : Type} `{EqComparable V}.

(** [interval_map(val)] *)
Definition make (val : V) : interval_map V :=
  {| m_valBegin := val; m_map := [] |}.

(** State of the scanning loop of [assign]. *)
Record scan_state : Type := {
  resized : option (entry V);
  will_delete : list K
}.

Definition push_back (k : K) (st : scan_state) : scan_state :=
  {| resized := resized st; will_delete := will_delete st ++ [k] |}.

Definition set_resized (e : entry V) (st : scan_state) : scan_state :=
  {| resized := Some e; will_delete := will_delete st |}.

(** The body of the loop for the node [(k, x)]; [next_it] is
    [std::next(it)], [None] when it is [m_map.end()]. *)
Definition scan_body (keyBegin keyEnd : K) (val : V)
    (k : K) (x : V) (next_it : option (entry V)) (st : scan_state) : scan_state :=
  if negb (keyBegin <? k) && negb (k <? keyBegin) && veqb x val then
    match next_it with
    | Some (k', x') => if veqb x' val then push_back k' st else st
    | None => st
    end
  else if negb (keyEnd <? k) && veqb x val then
    push_back k st
  else if negb (k <? keyBegin) && (k <? keyEnd) then
    let st' :=
      match next_it with
      | Some (k', _) => if keyEnd <? k' then set_resized (keyEnd, x) st else st
      | None => st
      end in
    push_back k st'
  else st.

(** [for (auto it = itBegin; it != iterator_end; ++it)], where [it] runs
    over the entries from [lower_bound(keyBegin)] up to and including
    [itEnd = lower_bound(keyEnd)], the first entry whose key is not less than
    [keyEnd]. *)
Fixpoint scan (keyBegin keyEnd : K) (val : V)
    (it : store V) (st : scan_state) : scan_state :=
  match it with
  | [] => st
  | (k, x) :: rest =>
      let st' := scan_body keyBegin keyEnd val k x (hd_error rest) st in
      if k <? keyEnd then scan keyBegin keyEnd val rest st' else st'
  end.

(** [for (auto it : will_delete) m_map.erase(it);] *)
Fixpoint erase_all (ks : list K) (s : store V) (fs : list fault)
    : store V * list fault :=
  match ks with
  | [] => (s, fs)
  | k :: ks' =>
      match deref k s with
      | Some _ => erase_all ks' (erase k s) fs
      | None => erase_all ks' s (fs ++ [DoubleErase])
      end
  end.

(** [while (!m_map.empty() && m_map.begin()->second == m_valBegin)
       m_map.erase(m_map.begin());] *)
Fixpoint canonize_top (valBegin : V) (s : store V) : store V :=
  match s with
  | [] => []
  | (k, x) :: r => if veqb x valBegin then canonize_top valBegin r else s
  end.

(** The block "Remove only m_valBegin sequential intervals". *)
Definition canonize_tail (valBegin : V) (s : store V) : store V :=
  match rbegin s with
  | None => s
  | Some (k, x) =>
      if veqb x valBegin then
        if (1 <? map_size s)%nat then
          match prev k s with
          | Some (k1, x1) =>
              if veqb x1 valBegin then
                let s' := if (map_size s =? 2)%nat then erase k1 s else s in
                erase k s'
              else s
          | None => s
          end
        else erase k s
      else s
  end.

(** The first block of the general case: scan the entries from
    [lower_bound(keyBegin)], insert the [resized] entry if one was noted,
    then erase the nodes collected in [will_delete]. *)
Definition delete_overlapping (keyBegin keyEnd : K) (val : V) (s : store V)
    : store V * list fault :=
  let itBegin := lower_bound keyBegin s in
  let st := scan keyBegin keyEnd val itBegin
              {| resized := None; will_delete := [] |} in
  let s1 :=
    match resized st with
    | Some (k, x) => insert_or_assign k x s
    | None => s
    end in
  erase_all (will_delete st) s1 [].

(** The second block: insert [(keyBegin, val)], then look at the entry after
    it and at the entry before it.  Where the source reads
    [what_after->second] with [what_after == m_map.end()], the comparison
    with [val] is taken to fail and the fault is recorded: the repository's
    tests rely on exactly that (an assignment to the right of every stored
    key is expected to keep all entries). *)
Definition insert_interval (keyBegin : K) (val : V) (s : store V)
    : store V * list fault :=
  let s3 := insert_or_assign keyBegin val s in
  let insert : iterator := Some keyBegin in
  let '(s4, fs) :=
    if negb (it_eqb insert end_) then
      match next keyBegin s3 with
      | Some (k', x') => if veqb x' val then (erase k' s3, []) else (s3, [])
      | None => (s3, [DerefEnd])
      end
    else (s3, []) in
  let s5 :=
    if negb (it_eqb insert (begin_ s4)) then
      match prev keyBegin s4 with
      | Some (_, x0) => if veqb x0 val then erase keyBegin s4 else s4
      | None => s4
      end
    else s4 in
  (s5, fs).

(** The end of [assign]: return if the map is empty, otherwise make sure the
    last entry holds [m_valBegin]. *)
Definition bound_tail (last_key : K) (valBegin : V) (s : store V) : store V :=
  if empty s then s
  else
    match rbegin s with
    | Some (_, x) =>
        if negb (veqb x valBegin) then insert_or_assign last_key valBegin s
        else s
    | None => s
    end.

(** The outcome of a call: the map it leaves and the undefined behaviour it
    went through. *)
Record outcome : Type := {
  result : interval_map V;
  faults : list fault
}.

Definition assign_run (m : interval_map V) (keyBegin keyEnd : K) (val : V)
    : outcome :=
  let valBegin := m_valBegin m in
  let s := m_map m in
  let ret s' fs := {| result := {| m_valBegin := valBegin; m_map := s' |};
                      faults := fs |} in
  if negb (keyBegin <? keyEnd) then ret s []
  else if empty s then
    if negb (veqb val valBegin) then
      ret (insert_or_assign keyBegin val (insert_or_assign keyEnd valBegin s)) []
    else ret s []
  else
    let last_key :=
      match rbegin s with
      | Some (k, _) => if k <? keyEnd then keyEnd else k
      | None => keyEnd
      end in
    let '(s2, fs2) := delete_overlapping keyBegin keyEnd val s in
    let '(s5, fs5) := insert_interval keyBegin val s2 in
    let s6 := canonize_top valBegin s5 in
    let s7 := canonize_tail valBegin s6 in
    ret (bound_tail last_key valBegin s7) (fs2 ++ fs5).

(** [m.assign(keyBegin, keyEnd, val)]: the map after the call. *)
Definition assign (m : interval_map V) (keyBegin keyEnd : K) (val : V)
    : interval_map V :=
  result (assign_run m keyBegin keyEnd val).

(** The call as a partial operation: defined when the source stays within
    defined behaviour. *)
Definition assign_checked (m : interval_map V) (keyBegin keyEnd : K) (val : V)
    : option (interval_map V) :=
  match faults (assign_run m keyBegin keyEnd val) with
  | [] => Some (assign m keyBegin keyEnd val)
  | _ :: _ => None
  end.

(** [m[key]] *)
Definition valueAt (m : interval_map V) (key : K) : V :=
  let it := option_map fst (hd_error (upper_bound key (m_map m))) in
  if it_eqb it (begin_ (m_map m)) then m_valBegin m
  else
    match prev_it it (m_map m) with
    | Some (_, x) => x
    | None => m_valBegin m
    end.

(** The loop of [is_canonical]: [prev_value] against the remaining entries. *)
Fixpoint no_repeat (prev_value : V) (s : store V) : bool :=
  match s with
  | [] => true
  | (_, x) :: r => if veqb x prev_value then false else no_repeat x r
  end.

(** [m.is_canonical()] *)
Definition is_canonical (m : interval_map V) : bool :=
  match m_map m with
  | [] => true
  | (_, x) :: r =>
      if veqb x (m_valBegin m) then false else no_repeat x r
  end.

(** [m.size()] *)
Definition size (m : interval_map V) : nat := map_size (m_map m).

(** [m.get_valBegin()] *)
Definition get_valBegin (m : interval_map V) : V := m_valBegin m.

(** A sequence of [assign] calls, first call first. *)
Definition call : Type := (K * K * V)%type.

Definition assign_call (m : interval_map V) (c : call) : interval_map V :=
  let '(keyBegin, keyEnd, val) := c in assign m keyBegin keyEnd val.

Definition assign_all (m : interval_map V) (cs : list call) : interval_map V :=
  fold_left assign_call cs m.

(** The states the map goes through: one per call, in order. *)
Fixpoint states (m : interval_map V) (cs : list call) : list (interval_map V) :=
  match cs with
  | [] => []
  | c :: cs' => let m' := assign_call m c in m' :: states m' cs'
  end.
End IntervalMap.

(** The maps used in the concrete scenarios: [interval_map<int, char>] with
    default ['A'], as in the repository's tests. *)
Module Scenarios.
Open Scope char_scope.

Definition fresh : interval_map ascii := make "A".

(** [m.assign(0, 3, 'B')] on a fresh map: boundaries [0 -> 'B', 3 -> 'A']. *)
Definition one_interval : interval_map ascii := assign fresh 0 3 "B".

(** [m.assign(10, 20, 'B')] on a fresh map, the first call of several tests. *)
Definition test_map : interval_map ascii := assign fresh 10 20 "B".

(** A map that is canonical but whose last entry does not hold the default
    value; no sequence of [assign] calls builds it from a fresh map. *)
Definition open_ended : interval_map ascii :=
  {| m_valBegin := "A"; m_map := [(4, "B")] |}.
End Scenarios.

(** ** Notions used to state the properties *)

Section Notions.
Context {V : Type} `{EqComparable V}.

(** The entry that holds at [key] among [e :: s] when the key of [e] is not
    greater than [key]: the last entry whose key is not greater than [key]. *)
Fixpoint floor_from (e : entry V) (key : K) (s : store V) : entry V :=
  match s with
  | [] => e
  | (k, x) :: r => if k <=? key then floor_from (k, x) key r else e
  end.

(** The value of the last entry of [s], or [p] when [s] is empty. *)
Fixpoint last_val (p : V) (s : store V) : V :=
  match s with
  | [] => p
  | (_, x) :: r => last_val x r
  end.

(** The entries before [lower_bound k s]: those whose key is less than [k]. *)
Fixpoint below (k : K) (s : store V) : store V :=
  match s with
  | [] => []
  | (k', x) :: r => if k' <? k then (k', x) :: below k r else []
  end.

(** All keys of [s] are less than [k]; all keys of [s] are at least [k]. *)
Definition keys_lt (k : K) (s : store V) : Prop :=
  Forall (fun en : entry V => fst en < k) s.
Definition keys_ge (k : K) (s : store V) : Prop :=
  Forall (fun en : entry V => k <= fst en) s.

(** How the general case of [assign] acts on a store cut at [keyBegin] and
    [keyEnd] into [L ++ M ++ R]: keys below [keyBegin], keys in
    [[keyBegin, keyEnd)], keys from [keyEnd] on. *)

(** The entry of [M] the scan leaves in place: one at [keyBegin] that
    already holds [val]. *)
Definition keep_head (keyBegin : K) (val : V) (M : store V) : store V :=
  match M with
  | (k, x) :: _ => if (k =? keyBegin) && veqb x val then [(k, x)] else []
  | [] => []
  end.

(** The entries of [M] the scan collects: all but the one [keep_head] keeps. *)
Definition strip_head (keyBegin : K) (val : V) (M : store V) : store V :=
  match M with
  | (k, x) :: M' => if (k =? keyBegin) && veqb x val then M' else M
  | [] => []
  end.

(** The key the scan collects in [R]: an entry at [keyEnd] holding [val]. *)
Definition hit_end (keyEnd : K) (val : V) (R : store V) : list K :=
  match R with
  | (k, x) :: _ => if negb (keyEnd <? k) && veqb x val then [k] else []
  | [] => []
  end.

(** Whether the scan notes a [resized] entry: the last entry of [M] holds
    another value than [val] and the next stored key is above [keyEnd]. *)
Definition carries (keyEnd : K) (val : V) (M R : store V) : bool :=
  match R with
  | (k1, _) :: _ => negb (veqb (last_val val M) val) && (keyEnd <? k1)
  | [] => false
  end.

(** What follows the entry at [keyBegin] after the forward merge. *)
Definition forward_tail (keyEnd : K) (val : V) (M R : store V) : store V :=
  match R with
  | [] => []
  | (k1, x1) :: R1 =>
      if carries keyEnd val M R then (keyEnd, last_val val M) :: R
      else if veqb x1 val then R1 else R
  end.

(** The same once the tail has been bounded by [bound_tail]. *)
Definition closed_tail (valBegin : V) (last_key keyEnd : K) (val : V)
    (M R : store V) : store V :=
  let T := forward_tail keyEnd val M R in
  if empty T && negb (veqb val valBegin) then [(last_key, valBegin)] else T.

(** An entry the loop collects in [will_delete]: inside the assigned range
    and not an entry at [keyBegin] that already holds [val]. *)
Definition regular (keyBegin keyEnd : K) (val : V) (en : entry V) : Prop :=
  keyBegin <= fst en < keyEnd /\ (fst en = keyBegin -> snd en <> val).

(** What is left of [R] once the scan's hit at [keyEnd] is erased. *)
Definition rest_after (keyEnd : K) (val : V) (R : store V) : store V :=
  match hit_end keyEnd val R with
  | [] => R
  | _ :: _ => tl R
  end.

(** What follows the entries below [keyEnd] after the first block. *)
Definition cleared_tail (keyEnd : K) (val : V) (M R : store V) : store V :=
  (if carries keyEnd val M R then [(keyEnd, last_val val M)] else [])
  ++ rest_after keyEnd val R.

(** The forward merge on what follows the inserted entry. *)
Definition merge_forward (val : V) (T0 : store V) : store V :=
  match T0 with
  | (_, x') :: T1 => if veqb x' val then T1 else T0
  | [] => []
  end.

(** The backward merge of the inserted entry into the entries before it. *)
Definition merge_back (keyBegin : K) (val : V) (L T : store V) : store V :=
  match rbegin L with
  | None => (keyBegin, val) :: T
  | Some (_, x0) => if veqb x0 val then L ++ T else L ++ (keyBegin, val) :: T
  end.

(** [last_key] as [assign] computes it. *)
Definition last_key_of (keyEnd : K) (s : store V) : K :=
  match rbegin s with
  | Some (k, _) => if k <? keyEnd then keyEnd else k
  | None => keyEnd
  end.

(** The entry left at [keyBegin]: none when the value before it is already
    [val] (backward merge, or an entry holding the default value at the
    top). *)
Definition settled_mid (valBegin : V) (keyBegin : K) (val : V) (L : store V)
    : store V :=
  if veqb (last_val valBegin L) val then [] else [(keyBegin, val)].

(** The store the general case of [assign] leaves. *)
Definition settled (valBegin : V) (keyBegin keyEnd : K) (val : V)
    (L M R : store V) : store V :=
  L ++ settled_mid valBegin keyBegin val L
    ++ closed_tail valBegin (last_key_of keyEnd (L ++ M ++ R)) keyEnd val M R.

(** Some stored entry lies beyond [keyEnd], or at [keyEnd] with another value
    than [val]. *)
Definition entry_past (keyEnd : K) (val : V) (s : store V) : bool :=
  existsb (fun en : entry V =>
             (keyEnd <? fst en) || ((fst en =? keyEnd) && negb (veqb (snd en) val))) s.

(** The cut [L ++ M ++ R] has a key in [[keyBegin, keyEnd]], or none from
    [keyEnd] on, or the value before [keyBegin] is [val] already. *)
Definition anchored (valBegin : V) (keyEnd : K) (val : V) (L M R : store V) : Prop :=
  M <> [] \/ R = [] \/ (exists x R1, R = (keyEnd, x) :: R1)
  \/ last_val valBegin L = val.

(** The last entry, if any, holds the default value. *)
Definition last_is_default (m : interval_map V) : Prop :=
  last_val (m_valBegin m) (m_map m) = m_valBegin m.

(** The states [assign] is designed for: keys increasing (which [std::map]
    guarantees), canonical, and closed by an entry holding the default
    value. *)
Definition valid (m : interval_map V) : Prop :=
  well_formed (m_map m) /\ is_canonical m = true /\ last_is_default m.
End Notions.

(** * Properties *)

(** ** Values and records *)

Section Basics.
Context {V : Type} `{EqComparable V}.

Lemma veqb_refl (a : V) : veqb a a = true.
Proof. now apply veqb_spec. Qed.

Lemma veqb_neq (a b : V) : veqb a b = false <-> a <> b.
Proof.
  split.
  - intros E F. apply veqb_spec in F. congruence.
  - intros N. destruct (veqb a b) eqn:E; [|reflexivity].
    apply veqb_spec in E. contradiction.
Qed.

Lemma veqb_sym (a b : V) : veqb a b = veqb b a.
Proof.
  destruct (veqb a b) eqn:E.
  - apply veqb_spec in E. subst. now rewrite veqb_refl.
  - symmetry. apply veqb_neq. apply veqb_neq in E. congruence.
Qed.

Lemma interval_map_eta (m : interval_map V) :
  {| m_valBegin := m_valBegin m; m_map := m_map m |} = m.
Proof. now destruct m. Qed.
End Basics.

(** ** The ordered store *)

Section StoreFacts.
Context {V : Type}.
Implicit Types (s r : store V) (k key : K).

Lemma well_formed_cons k (x : V) r :
  well_formed ((k, x) :: r) <->
  well_formed r /\ Forall (fun k' => k < k') (keys r).
Proof.
  unfold well_formed; simpl. split.
  - intros W. inversion W; subst. now split.
  - intros [W F]. now constructor.
Qed.

Lemma well_formed_nil : well_formed (@nil (entry V)).
Proof. constructor. Qed.

Lemma keys_app (a b : store V) : keys (a ++ b) = keys a ++ keys b.
Proof. apply map_app. Qed.

Lemma in_keys k (x : V) s : In (k, x) s -> In k (keys s).
Proof. intros I. apply (in_map fst) in I. exact I. Qed.

Lemma rbegin_cons (e e' : entry V) r : rbegin (e :: e' :: r) = rbegin (e' :: r).
Proof.
  unfold rbegin. simpl.
  destruct (rev r ++ [e']) as [|y l] eqn:E.
  - destruct (rev r); discriminate.
  - reflexivity.
Qed.

Lemma rbegin_app_last (a : store V) (e : entry V) : rbegin (a ++ [e]) = Some e.
Proof. unfold rbegin. now rewrite rev_app_distr. Qed.

Lemma well_formed_cons_fst (e : entry V) r k :
  well_formed (e :: r) -> In k (keys (e :: r)) -> fst e <= k.
Proof.
  destruct e as [k0 x0]. intros W I. apply well_formed_cons in W as [_ F].
  rewrite Forall_forall in F. destruct I as [<-|I]; simpl; [lia|].
  apply F in I. lia.
Qed.

(** In a well-formed store a key carries one value. *)
Lemma well_formed_functional s k (x y : V) :
  well_formed s -> In (k, x) s -> In (k, y) s -> x = y.
Proof.
  induction s as [|[k0 x0] r IH]; intros W Ix Iy; [easy|].
  apply well_formed_cons in W as [W F].
  rewrite Forall_forall in F.
  destruct Ix as [Ex|Ix], Iy as [Ey|Iy].
  - congruence.
  - inversion Ex; subst. apply in_keys, F in Iy. lia.
  - inversion Ey; subst. apply in_keys, F in Ix. lia.
  - now apply IH.
Qed.
End StoreFacts.

(** ** Lookup *)

Section Lookup.
Context {V : Type} `{EqComparable V}.
Implicit Types (s r : store V) (k key : K) (m : interval_map V).

Lemma prev_it_upper_bound (e : entry V) key r :
  well_formed (e :: r) -> fst e <= key ->
  prev_it (option_map fst (hd_error (upper_bound key r))) (e :: r)
  = Some (floor_from e key r).
Proof.
  revert e. induction r as [|[k1 x1] r IH]; intros [k0 x0] W L; simpl in *.
  - reflexivity.
  - apply well_formed_cons in W as [W F].
    pose proof (Forall_inv F) as L01; simpl in L01.
    destruct (key <? k1) eqn:E1.
    + apply Z.ltb_lt in E1.
      replace (k1 <=? key) with false by (symmetry; apply Z.leb_gt; lia).
      simpl.
      replace (k0 <? k1) with true by (symmetry; apply Z.ltb_lt; lia).
      now rewrite Z.ltb_irrefl.
    + apply Z.ltb_ge in E1.
      replace (k1 <=? key) with true by (symmetry; apply Z.leb_le; lia).
      specialize (IH (k1, x1) W E1). simpl in IH.
      destruct (hd_error (upper_bound key r)) as [[k' x']|] eqn:U; simpl in *.
      * destruct (k0 <? k') eqn:E0.
        -- now rewrite IH.
        -- (* the key found by [upper_bound] is above [key] *)
           destruct (k1 <? k') eqn:E2; [|discriminate].
           apply Z.ltb_lt in E2. apply Z.ltb_ge in E0. lia.
      * rewrite rbegin_cons. exact IH.
Qed.

Lemma floor_from_spec (e : entry V) key r :
  well_formed (e :: r) -> fst e <= key ->
  In (floor_from e key r) (e :: r) /\
  fst (floor_from e key r) <= key /\
  forall k', In k' (keys (e :: r)) -> k' <= key -> k' <= fst (floor_from e key r).
Proof.
  revert e. induction r as [|[k1 x1] r IH]; intros [k0 x0] W L; simpl in *.
  - repeat split; auto. intros k' [->|[]] _. lia.
  - apply well_formed_cons in W as [W F].
    destruct (k1 <=? key) eqn:E1.
    + apply Z.leb_le in E1.
      destruct (IH (k1, x1) W E1) as (I & B & M). simpl in *.
      repeat split; auto.
      intros k' [<-|I'] L'; [|now apply M].
      pose proof (Forall_inv F) as L01; simpl in L01.
      specialize (M k1 (or_introl eq_refl) E1). lia.
    + apply Z.leb_gt in E1. simpl.
      repeat split; auto.
      intros k' [<-|[<-|I']] L'; try lia.
      apply well_formed_cons in W as [_ F1].
      rewrite Forall_forall in F1. apply F1 in I'. lia.
Qed.

Lemma valueAt_cons m key (e : entry V) r :
  m_map m = e :: r -> well_formed (e :: r) ->
  valueAt m key =
    if key <? fst e then m_valBegin m else snd (floor_from e key r).
Proof.
  intros E W. unfold valueAt. rewrite E. destruct e as [k0 x0]. simpl.
  destruct (key <? k0) eqn:E0; simpl.
  - now rewrite Z.eqb_refl.
  - apply Z.ltb_ge in E0.
    pose proof (prev_it_upper_bound (k0, x0) key r W E0) as P.
    destruct (hd_error (upper_bound key r)) as [[k' x']|] eqn:U; simpl in *.
    + assert (k0 < k') as L.
      { destruct (k0 <? k') eqn:E1; [now apply Z.ltb_lt|discriminate]. }
      replace (k' =? k0) with false by (symmetry; apply Z.eqb_neq; lia).
      simpl. replace (k0 <? k') with true in * by (symmetry; apply Z.ltb_lt; lia).
      rewrite P. now destruct (floor_from (k0, x0) key r).
    + rewrite P. now destruct (floor_from (k0, x0) key r).
Qed.
End Lookup.

(** ** Phases 0 and 1 of [assign] *)

Section EarlyReturns.
Context {V : Type} `{EqComparable V}.

Lemma assign_run_degenerate (m : interval_map V) (keyBegin keyEnd : K) (val : V) :
  ~ keyBegin < keyEnd ->
  assign_run m keyBegin keyEnd val = {| result := m; faults := [] |}.
Proof.
  intros N. unfold assign_run.
  replace (keyBegin <? keyEnd) with false by (symmetry; apply Z.ltb_ge; lia).
  simpl. now rewrite interval_map_eta.
Qed.

Lemma assign_degenerate (m : interval_map V) (keyBegin keyEnd : K) (val : V) :
  ~ keyBegin < keyEnd -> assign m keyBegin keyEnd val = m.
Proof. intros N. unfold assign. now rewrite assign_run_degenerate. Qed.
End EarlyReturns.

(** ** The store cut at a key *)

Section Cuts.
Context {V : Type}.
Implicit Types (s r a b L M R T : store V) (k key : K) (x : V).

Lemma below_lower_bound k s : s = below k s ++ lower_bound k s.
Proof.
  induction s as [|[k' x] r IH]; simpl; [reflexivity|].
  destruct (k' <? k); simpl; congruence.
Qed.

Lemma keys_lt_below k s : keys_lt k (below k s).
Proof.
  induction s as [|[k' x] r IH]; simpl; [constructor|].
  destruct (k' <? k) eqn:E; constructor; auto.
  now apply Z.ltb_lt in E.
Qed.

Lemma keys_ge_lower_bound k s : well_formed s -> keys_ge k (lower_bound k s).
Proof.
  induction s as [|[k' x] r IH]; intros W; simpl; [constructor|].
  apply well_formed_cons in W as [W F].
  destruct (k' <? k) eqn:E; auto.
  apply Z.ltb_ge in E. constructor; [exact E|].
  unfold keys in F. rewrite Forall_map in F.
  eapply Forall_impl; [|exact F]. simpl. intros; lia.
Qed.

Lemma well_formed_app a b :
  well_formed (a ++ b) <->
  well_formed a /\ well_formed b /\
  (forall ea eb, In ea a -> In eb b -> fst ea < fst eb).
Proof.
  induction a as [|[k x] a IH]; simpl.
  - split; [intros W|intros (_ & W & _); exact W].
    repeat split; [apply well_formed_nil|exact W|intros ? ? []].
  - rewrite !well_formed_cons, IH, keys_app, Forall_app.
    unfold keys. rewrite !Forall_map, !Forall_forall. split.
    + intros ((Wa & Wb & C) & Fa & Fb). repeat split; auto.
      intros ea eb [<-|Ia] Ib; [now apply Fb|now apply C].
    + intros ((Wa & Fa) & Wb & C). repeat split; auto.
      intros eb Ib. apply (C (k, x) eb); auto.
Qed.

Lemma well_formed_app_l a b : well_formed (a ++ b) -> well_formed a.
Proof. intros W. now apply well_formed_app in W. Qed.

Lemma well_formed_app_r a b : well_formed (a ++ b) -> well_formed b.
Proof. intros W. now apply well_formed_app in W. Qed.

Lemma well_formed_join k a b :
  well_formed a -> well_formed b -> keys_lt k a -> keys_ge k b ->
  well_formed (a ++ b).
Proof.
  intros Wa Wb La Gb. apply well_formed_app. repeat split; auto.
  unfold keys_lt, keys_ge in *. rewrite Forall_forall in La, Gb.
  intros ea eb Ia Ib. apply La in Ia. apply Gb in Ib. lia.
Qed.

Lemma keys_lt_app k a b : keys_lt k (a ++ b) <-> keys_lt k a /\ keys_lt k b.
Proof. apply Forall_app. Qed.

Lemma keys_ge_app k a b : keys_ge k (a ++ b) <-> keys_ge k a /\ keys_ge k b.
Proof. apply Forall_app. Qed.

Lemma keys_lt_weaken k k' a : k <= k' -> keys_lt k a -> keys_lt k' a.
Proof. intros L. apply Forall_impl. intros; lia. Qed.

Lemma keys_ge_weaken k k' a : k' <= k -> keys_ge k a -> keys_ge k' a.
Proof. intros L. apply Forall_impl. intros; lia. Qed.

Lemma keys_ge_tail k1 x1 R : well_formed ((k1, x1) :: R) -> keys_ge k1 R.
Proof.
  intros W. apply well_formed_cons in W as [_ F].
  unfold keys in F. rewrite Forall_map in F.
  eapply Forall_impl; [|exact F]. simpl; intros; lia.
Qed.

Lemma keys_gt_tail k1 x1 R en :
  well_formed ((k1, x1) :: R) -> In en R -> k1 < fst en.
Proof.
  intros W I. apply well_formed_cons in W as [_ F].
  unfold keys in F. rewrite Forall_map, Forall_forall in F. now apply F.
Qed.

(** *** [lower_bound] and [upper_bound] *)

Lemma lower_bound_app k L r :
  keys_lt k L -> keys_ge k r -> lower_bound k (L ++ r) = r.
Proof.
  intros HL HR. induction L as [|[k' x] L IH]; simpl.
  - destruct r as [|[k' x] r]; [reflexivity|]. simpl.
    apply Forall_inv in HR. simpl in HR.
    now replace (k' <? k) with false by (symmetry; apply Z.ltb_ge; lia).
  - inversion HL; subst. simpl in *.
    replace (k' <? k) with true by (symmetry; apply Z.ltb_lt; lia). auto.
Qed.

Lemma below_app k L r : keys_lt k L -> keys_ge k r -> below k (L ++ r) = L.
Proof.
  intros HL HR. induction L as [|[k' x] L IH]; simpl.
  - destruct r as [|[k' x] r]; [reflexivity|]. simpl.
    apply Forall_inv in HR. simpl in HR.
    now replace (k' <? k) with false by (symmetry; apply Z.ltb_ge; lia).
  - inversion HL; subst. simpl in *.
    replace (k' <? k) with true by (symmetry; apply Z.ltb_lt; lia).
    now rewrite IH.
Qed.

Lemma upper_bound_app k x L T :
  keys_lt k L -> well_formed ((k, x) :: T) ->
  upper_bound k (L ++ (k, x) :: T) = T.
Proof.
  intros HL W. induction L as [|[k' x'] L IH]; simpl.
  - rewrite Z.ltb_irrefl. destruct T as [|[k1 x1] T]; [reflexivity|]. simpl.
    pose proof (keys_gt_tail k x _ (k1, x1) W (or_introl eq_refl)) as G.
    simpl in G. now replace (k <? k1) with true by (symmetry; apply Z.ltb_lt; lia).
  - inversion HL; subst. simpl in *.
    replace (k <? k') with false by (symmetry; apply Z.ltb_ge; lia). auto.
Qed.

Lemma next_app k x L T :
  keys_lt k L -> well_formed ((k, x) :: T) ->
  next k (L ++ (k, x) :: T) = hd_error T.
Proof. intros HL W. unfold next. now rewrite upper_bound_app. Qed.

(** *** [prev] and [rbegin] *)

Lemma rbegin_app_cons a (e : entry V) r : rbegin (a ++ e :: r) = rbegin (e :: r).
Proof.
  induction a as [|e0 a IH]; [reflexivity|].
  simpl. destruct (a ++ e :: r) as [|e1 r1] eqn:E.
  - destruct a; discriminate.
  - now rewrite rbegin_cons.
Qed.

Lemma rbegin_nil_inv s : rbegin s = None -> s = [].
Proof.
  destruct s as [|e r]; [reflexivity|]. unfold rbegin. simpl.
  destruct (rev r); discriminate.
Qed.

Lemma prev_app k x L T : keys_lt k L -> prev k (L ++ (k, x) :: T) = rbegin L.
Proof.
  intros HL. induction L as [|[k' x'] L IH]; simpl.
  - now rewrite Z.ltb_irrefl.
  - inversion HL; subst. simpl in *.
    replace (k' <? k) with true by (symmetry; apply Z.ltb_lt; lia).
    rewrite IH by assumption.
    destruct L as [|e L]; [reflexivity|].
    rewrite rbegin_cons. destruct (rbegin (e :: L)) eqn:E; [reflexivity|].
    apply rbegin_nil_inv in E. discriminate.
Qed.

Lemma prev_last L (e : entry V) : 
  well_formed (L ++ [e]) -> prev (fst e) (L ++ [e]) = rbegin L.
Proof.
  intros W. destruct e as [k x]. apply prev_app.
  apply well_formed_app in W as (_ & _ & C).
  apply Forall_forall. intros ea Ia. apply (C ea (k, x) Ia). now left.
Qed.

(** *** [insert_or_assign] *)

Lemma insert_or_assign_app k x L r :
  keys_lt k L -> insert_or_assign k x (L ++ r) = L ++ insert_or_assign k x r.
Proof.
  intros HL. induction L as [|[k' x'] L IH]; simpl; [reflexivity|].
  inversion HL; subst. simpl in *.
  replace (k <? k') with false by (symmetry; apply Z.ltb_ge; lia).
  replace (k' <? k) with true by (symmetry; apply Z.ltb_lt; lia).
  now rewrite IH.
Qed.

Lemma insert_or_assign_front k x r :
  (forall en, In en r -> k < fst en) -> insert_or_assign k x r = (k, x) :: r.
Proof.
  intros G. destruct r as [|[k' x'] r]; [reflexivity|]. simpl.
  specialize (G (k', x') (or_introl eq_refl)). simpl in G.
  now replace (k <? k') with true by (symmetry; apply Z.ltb_lt; lia).
Qed.

Lemma insert_or_assign_same k x x' r :
  insert_or_assign k x ((k, x') :: r) = (k, x) :: r.
Proof. simpl. now rewrite Z.ltb_irrefl. Qed.

Lemma insert_or_assign_end k x L :
  keys_lt k L -> insert_or_assign k x L = L ++ [(k, x)].
Proof.
  intros HL. rewrite <- (app_nil_r L) at 1.
  now rewrite insert_or_assign_app.
Qed.

(** *** [erase] and [deref] *)

Lemma erase_app k x L r :
  (forall en, In en L -> fst en <> k) ->
  erase k (L ++ (k, x) :: r) = L ++ r.
Proof.
  intros N. induction L as [|[k' x'] L IH]; simpl.
  - now rewrite Z.eqb_refl.
  - pose proof (N (k', x') (or_introl eq_refl)) as N'. simpl in N'.
    replace (k' =? k) with false by (symmetry; apply Z.eqb_neq; lia).
    rewrite IH; [reflexivity|]. intros en I. apply N. now right.
Qed.

Lemma deref_app k x L r :
  (forall en, In en L -> fst en <> k) ->
  deref k (L ++ (k, x) :: r) = Some (k, x).
Proof.
  intros N. induction L as [|[k' x'] L IH]; simpl.
  - now rewrite Z.eqb_refl.
  - pose proof (N (k', x') (or_introl eq_refl)) as N'. simpl in N'.
    replace (k' =? k) with false by (symmetry; apply Z.eqb_neq; lia).
    apply IH. intros en I. apply N. now right.
Qed.

Lemma keys_lt_neq k k' L : keys_lt k L -> k <= k' -> forall en, In en L -> fst en <> k'.
Proof.
  intros HL Le en I. unfold keys_lt in HL. rewrite Forall_forall in HL.
  apply HL in I. lia.
Qed.
End Cuts.

(** ** Chains of distinct consecutive values *)

Section Chains.
Context {V : Type} `{EqComparable V}.
Implicit Types (s r a b L M R T : store V) (k key : K) (x p q : V).

Lemma is_canonical_no_repeat (m : interval_map V) :
  is_canonical m = no_repeat (m_valBegin m) (m_map m).
Proof. unfold is_canonical. now destruct (m_map m) as [|[k x] r]. Qed.

Lemma last_val_app p a b : last_val p (a ++ b) = last_val (last_val p a) b.
Proof. revert p. induction a as [|[k x] a IH]; intros p; simpl; auto. Qed.

Lemma last_val_nonempty p q s : s <> [] -> last_val p s = last_val q s.
Proof. destruct s as [|[k x] r]; [easy|reflexivity]. Qed.

Lemma no_repeat_app p a b :
  no_repeat p (a ++ b) = no_repeat p a && no_repeat (last_val p a) b.
Proof.
  revert p. induction a as [|[k x] a IH]; intros p; simpl; [reflexivity|].
  destruct (veqb x p); [reflexivity|apply IH].
Qed.

Lemma no_repeat_cons p k x r :
  no_repeat p ((k, x) :: r) = true <-> x <> p /\ no_repeat x r = true.
Proof.
  simpl. destruct (veqb x p) eqn:E.
  - apply veqb_spec in E. split; [discriminate|]. intros [N _]. contradiction.
  - apply veqb_neq in E. tauto.
Qed.

Lemma rbegin_last_val p s k x : rbegin s = Some (k, x) -> last_val p s = x.
Proof.
  revert p. induction s as [|[k0 x0] r IH]; intros p E; [discriminate|].
  destruct r as [|e r].
  - unfold rbegin in E. simpl in E. now inversion E.
  - rewrite rbegin_cons in E.
    change (last_val p ((k0, x0) :: e :: r)) with (last_val x0 (e :: r)).
    now apply IH.
Qed.

Lemma rbegin_some s : s <> [] -> exists k x, rbegin s = Some (k, x).
Proof.
  intros N. destruct (rbegin s) as [[k x]|] eqn:E; [eauto|].
  apply rbegin_nil_inv in E. contradiction.
Qed.

(** The top of a canonical chain stays; its tail too. *)
Lemma canonize_top_chain p s : no_repeat p s = true -> canonize_top p s = s.
Proof.
  destruct s as [|[k x] r]; [reflexivity|]. simpl.
  destruct (veqb x p); [discriminate|reflexivity].
Qed.

Lemma canonize_tail_chain p s :
  well_formed s -> no_repeat p s = true -> canonize_tail p s = s.
Proof.
  intros W C. unfold canonize_tail.
  destruct (rbegin s) as [[k x]|] eqn:E; [|reflexivity].
  destruct (veqb x p) eqn:Ex; [|reflexivity].
  apply veqb_spec in Ex. subst x.
  assert (exists a, s = a ++ [(k, p)]) as [a ->].
  { destruct (exists_last (l := s)) as (a & e & ->).
    - intros ->. discriminate.
    - rewrite rbegin_app_last in E. inversion E. now exists a. }
  rewrite no_repeat_app in C. apply andb_prop in C as [Ca Cl].
  apply no_repeat_cons in Cl as [Np _].
  pose proof (prev_last a (k, p) W) as P. cbn [fst] in P. rewrite P.
  destruct a as [|e a].
  - simpl in Np. contradiction.
  - replace (1 <? map_size ((e :: a) ++ [(k, p)]))%nat with true.
    2:{ symmetry. apply Nat.ltb_lt. unfold map_size. rewrite length_app.
        simpl. lia. }
    destruct (rbegin_some (e :: a)) as (k1 & x1 & E1); [discriminate|].
    rewrite E1. rewrite (rbegin_last_val p _ _ _ E1) in Np.
    apply veqb_neq in Np. rewrite veqb_sym in Np. now rewrite Np.
Qed.
End Chains.

(** ** The scanning loop *)

Section Scan.
Context {V : Type} `{EqComparable V}.
Implicit Types (s r L M R T : store V) (k key : K) (x p q : V).
Variables (keyBegin keyEnd : K) (val : V).
Hypothesis range : keyBegin < keyEnd.

Lemma carries_nil R : carries keyEnd val [] R = false.
Proof.
  unfold carries. destruct R as [|[k1 x1] R]; [reflexivity|].
  simpl. now rewrite veqb_refl.
Qed.

Lemma scan_after R st :
  keys_ge keyEnd R ->
  scan keyBegin keyEnd val R st =
    {| resized := resized st;
       will_delete := will_delete st ++ hit_end keyEnd val R |}.
Proof.
  intros G. destruct st as [rz wd].
  destruct R as [|[k x] R]; simpl.
  - now rewrite app_nil_r.
  - apply Forall_inv in G. simpl in G.
    replace (k <? keyEnd) with false by (symmetry; apply Z.ltb_ge; lia).
    unfold scan_body.
    replace (keyBegin <? k) with true by (symmetry; apply Z.ltb_lt; lia).
    simpl. destruct (negb (keyEnd <? k) && veqb x val) eqn:E.
    + reflexivity.
    + replace (k <? keyEnd) with false by (symmetry; apply Z.ltb_ge; lia).
      rewrite andb_false_r. simpl. now rewrite app_nil_r.
Qed.

Lemma scan_regular Mr R st :
  Forall (regular keyBegin keyEnd val) Mr -> keys_ge keyEnd R ->
  scan keyBegin keyEnd val (Mr ++ R) st =
    {| resized := if carries keyEnd val Mr R
                  then Some (keyEnd, last_val val Mr) else resized st;
       will_delete := will_delete st ++ map fst Mr ++ hit_end keyEnd val R |}.
Proof.
  intros F G. revert st. induction F as [|[k x] M' [B N] F IH]; intros st.
  - simpl. rewrite carries_nil. now apply scan_after.
  - simpl in B, N. cbn [app scan].
    replace (k <? keyEnd) with true by (symmetry; apply Z.ltb_lt; lia).
    rewrite IH. clear IH. cbn [map fst]. f_equal.
    + (* resized *)
      destruct M' as [|[k2 x2] M''].
      * rewrite carries_nil. cbn [app last_val].
        unfold scan_body.
        replace (negb (keyBegin <? k) && negb (k <? keyBegin) && veqb x val)
          with false.
        2:{ symmetry. destruct (Z.eq_dec k keyBegin) as [->|D].
            - specialize (N eq_refl). apply veqb_neq in N. rewrite N.
              apply andb_false_r.
            - replace (keyBegin <? k) with true by (symmetry; apply Z.ltb_lt; lia).
              reflexivity. }
        replace (negb (keyEnd <? k)) with true
          by (symmetry; apply negb_true_iff, Z.ltb_ge; lia).
        replace (negb (k <? keyBegin)) with true
          by (symmetry; apply negb_true_iff, Z.ltb_ge; lia).
        replace (k <? keyEnd) with true by (symmetry; apply Z.ltb_lt; lia).
        unfold carries. cbn [last_val andb].
        destruct R as [|[k1 x1] R]; destruct (veqb x val); cbn; try reflexivity.
        destruct (keyEnd <? k1); reflexivity.
      * assert (carries keyEnd val ((k, x) :: (k2, x2) :: M'') R
                = carries keyEnd val ((k2, x2) :: M'') R) as ->.
        { unfold carries. destruct R as [|[k1 x1] R]; reflexivity. }
        destruct (carries keyEnd val ((k2, x2) :: M'') R); [reflexivity|].
        apply Forall_inv in F. destruct F as [B2 _]. simpl in B2.
        unfold scan_body. cbn [app hd_error].
        replace (keyEnd <? k2) with false by (symmetry; apply Z.ltb_ge; lia).
        destruct (negb (keyBegin <? k) && negb (k <? keyBegin) && veqb x val);
          [destruct (veqb x2 val); reflexivity|].
        destruct (negb (keyEnd <? k) && veqb x val); [reflexivity|].
        destruct (negb (k <? keyBegin) && (k <? keyEnd)); reflexivity.
    + (* will_delete *)
      assert (will_delete (scan_body keyBegin keyEnd val k x
                             (hd_error (M' ++ R)) st) = will_delete st ++ [k]) as ->.
      { unfold scan_body.
        replace (negb (keyBegin <? k) && negb (k <? keyBegin) && veqb x val)
          with false.
        2:{ symmetry. destruct (Z.eq_dec k keyBegin) as [->|D].
            - specialize (N eq_refl). apply veqb_neq in N. rewrite N.
              apply andb_false_r.
            - replace (keyBegin <? k) with true by (symmetry; apply Z.ltb_lt; lia).
              reflexivity. }
        replace (negb (keyEnd <? k)) with true
          by (symmetry; apply negb_true_iff, Z.ltb_ge; lia).
        replace (negb (k <? keyBegin)) with true
          by (symmetry; apply negb_true_iff, Z.ltb_ge; lia).
        replace (k <? keyEnd) with true by (symmetry; apply Z.ltb_lt; lia).
        cbn [andb]. destruct (veqb x val); [reflexivity|].
        destruct (hd_error (M' ++ R)) as [[k' x']|]; [|reflexivity].
        destruct (keyEnd <? k'); reflexivity. }
      now rewrite <- !app_assoc.
Qed.
End Scan.

(** ** The two blocks of the general case *)

Section Blocks.
Context {V : Type} `{EqComparable V}.
Implicit Types (s r A B C L M R T : store V) (k key : K) (x p q : V).

Lemma erase_all_app ks1 ks2 s fs :
  erase_all (ks1 ++ ks2) s fs =
    let '(s', fs') := erase_all ks1 s fs in erase_all ks2 s' fs'.
Proof.
  revert s fs. induction ks1 as [|k ks1 IH]; intros s fs; simpl.
  - reflexivity.
  - destruct (deref k s); apply IH.
Qed.

Lemma well_formed_drop_mid A B C :
  well_formed (A ++ B ++ C) -> well_formed (A ++ C).
Proof.
  rewrite !well_formed_app. intros (WA & (WB & WC & BC) & AC).
  repeat split; auto. intros ea ec Ia Ic. apply AC; auto.
  apply in_or_app. now right.
Qed.

Lemma well_formed_mid_fresh A k x C :
  well_formed (A ++ (k, x) :: C) -> forall en, In en A -> fst en <> k.
Proof.
  intros W en I. apply well_formed_app in W as (_ & _ & AC).
  specialize (AC en (k, x) I (or_introl eq_refl)). simpl in AC. lia.
Qed.

(** Erasing the nodes of a block of consecutive entries. *)
Lemma erase_all_block A B C fs :
  well_formed (A ++ B ++ C) ->
  erase_all (map fst B) (A ++ B ++ C) fs = (A ++ C, fs).
Proof.
  revert fs. induction B as [|[k x] B IH]; intros fs W; simpl.
  - reflexivity.
  - simpl in W. pose proof (well_formed_mid_fresh _ _ _ _ W) as N.
    rewrite deref_app, erase_app by exact N.
    apply IH. now apply (well_formed_drop_mid A [(k, x)] (B ++ C)).
Qed.

Lemma keep_strip keyBegin val M :
  M = keep_head keyBegin val M ++ strip_head keyBegin val M.
Proof.
  destruct M as [|[k x] M]; simpl; [reflexivity|].
  destruct ((k =? keyBegin) && veqb x val); reflexivity.
Qed.

Lemma last_val_strip keyBegin val M :
  last_val val (strip_head keyBegin val M) = last_val val M.
Proof.
  destruct M as [|[k x] M]; simpl; [reflexivity|].
  destruct ((k =? keyBegin) && veqb x val) eqn:E; [|reflexivity].
  apply andb_prop in E as [_ E]. apply veqb_spec in E. now subst.
Qed.

Lemma carries_strip keyBegin keyEnd val M R :
  carries keyEnd val (strip_head keyBegin val M) R = carries keyEnd val M R.
Proof.
  unfold carries. destruct R as [|[k1 x1] R]; [reflexivity|].
  now rewrite last_val_strip.
Qed.

Section Cut.
Variables (keyBegin keyEnd : K) (val : V) (L M R : store V).
Hypothesis range : keyBegin < keyEnd.
Hypothesis wf : well_formed (L ++ M ++ R).
Hypothesis cutL : keys_lt keyBegin L.
Hypothesis cutM : keys_ge keyBegin M.
Hypothesis cutM' : keys_lt keyEnd M.
Hypothesis cutR : keys_ge keyEnd R.

Lemma strip_regular :
  Forall (regular keyBegin keyEnd val) (strip_head keyBegin val M).
Proof.
  assert (WM : well_formed M).
  { eapply well_formed_app_l, well_formed_app_r. exact wf. }
  unfold keys_ge, keys_lt in cutM, cutM'.
  destruct M as [|[k x] M']; simpl; [constructor|].
  assert (T : Forall (regular keyBegin keyEnd val) M').
  { apply Forall_forall. intros en I.
    pose proof (keys_gt_tail k x M' en WM I) as G.
    apply Forall_inv in cutM. simpl in cutM.
    apply Forall_inv_tail in cutM'. rewrite Forall_forall in cutM'.
    apply cutM' in I. split; lia. }
  destruct ((k =? keyBegin) && veqb x val) eqn:E; [exact T|].
  constructor; [|exact T].
  apply Forall_inv in cutM, cutM'. simpl in *. unfold regular; simpl. split; [lia|].
  intros ->. rewrite Z.eqb_refl in E. simpl in E. now apply veqb_neq.
Qed.

Lemma scan_cut p :
  no_repeat p (M ++ R) = true ->
  scan keyBegin keyEnd val (M ++ R) {| resized := None; will_delete := [] |}
  = {| resized := if carries keyEnd val M R
                  then Some (keyEnd, last_val val M) else None;
       will_delete := map fst (strip_head keyBegin val M)
                      ++ hit_end keyEnd val R |}.
Proof.
  intros C. pose proof strip_regular as F.
  rewrite <- (carries_strip keyBegin), <- (last_val_strip keyBegin).
  destruct M as [|[k x] M']; cbn [strip_head] in *.
  - now rewrite (scan_regular keyBegin keyEnd val range [] R).
  - destruct ((k =? keyBegin) && veqb x val) eqn:E.
    + apply andb_prop in E as [Ek Ex].
      apply Z.eqb_eq in Ek. apply veqb_spec in Ex. subst k x.
      cbn [app scan]. 
      replace (keyBegin <? keyEnd) with true by (symmetry; apply Z.ltb_lt; lia).
      assert (scan_body keyBegin keyEnd val keyBegin val
                (hd_error (M' ++ R)) {| resized := None; will_delete := [] |}
              = {| resized := None; will_delete := [] |}) as ->.
      { unfold scan_body. rewrite Z.ltb_irrefl, veqb_refl. cbn [negb andb].
        cbn [app] in C. apply no_repeat_cons in C as [_ C].
        destruct (M' ++ R) as [|[k' x'] r']; [reflexivity|].
        apply no_repeat_cons in C as [C _]. apply veqb_neq in C.
        cbn [hd_error]. now rewrite C. }
      now rewrite (scan_regular keyBegin keyEnd val range M' R).
    + now rewrite (scan_regular keyBegin keyEnd val range _ R).
Qed.

Lemma delete_overlapping_cut p :
  no_repeat p (L ++ M ++ R) = true ->
  delete_overlapping keyBegin keyEnd val (L ++ M ++ R)
  = (L ++ keep_head keyBegin val M ++ cleared_tail keyEnd val M R, []).
Proof.
  intros C. unfold delete_overlapping.
  rewrite lower_bound_app; [|exact cutL|].
  2:{ apply keys_ge_app. split; [exact cutM|].
      eapply keys_ge_weaken; [|exact cutR]. lia. }
  rewrite no_repeat_app in C. apply andb_prop in C as [_ C].
  rewrite (scan_cut _ C). cbn [resized will_delete].
  rewrite erase_all_app. unfold cleared_tail, rest_after.
  destruct (carries keyEnd val M R) eqn:Ec.
  - (* a resized entry is inserted at keyEnd *)
    unfold carries in Ec. destruct R as [|[k1 x1] R1]; [discriminate|].
    apply andb_prop in Ec as [_ Ek]. apply Z.ltb_lt in Ek.
    assert (hit_end keyEnd val ((k1, x1) :: R1) = []) as ->.
    { simpl. now replace (keyEnd <? k1) with true by (symmetry; apply Z.ltb_lt; lia). }
    rewrite app_assoc, insert_or_assign_app.
    2:{ apply keys_lt_app. split; [|exact cutM'].
        eapply keys_lt_weaken; [|exact cutL]. lia. }
    rewrite insert_or_assign_front.
    2:{ intros en [<-|I]; simpl; [lia|].
        pose proof (keys_gt_tail k1 x1 R1 en) as G.
        assert (well_formed ((k1, x1) :: R1)) as W1
            by (eapply well_formed_app_r, well_formed_app_r; exact wf).
        specialize (G W1 I). lia. }
    rewrite <- app_assoc.
    rewrite (keep_strip keyBegin val M) at 2.
    rewrite <- !app_assoc.
    rewrite (app_assoc L).
    rewrite erase_all_block.
    + simpl. now rewrite <- app_assoc.
    + rewrite <- !app_assoc, (app_assoc (keep_head _ _ _)), <- keep_strip.
      apply well_formed_app. destruct (proj1 (well_formed_app _ _) wf) as (WL & WMR & LMR).
      repeat split; auto.
      * apply well_formed_app in WMR as (WM & WR & MR).
        apply well_formed_app. repeat split; auto.
        -- apply well_formed_cons. split; [exact WR|].
           unfold keys. rewrite Forall_map. apply Forall_forall.
           intros en I. destruct I as [<-|I]; simpl; [lia|].
           pose proof (keys_gt_tail k1 x1 R1 en WR I). lia.
        -- intros ea eb Ia [<-|Ib]; simpl.
           ++ unfold keys_lt in cutM'. rewrite Forall_forall in cutM'. now apply cutM'.
           ++ now apply MR.
      * intros ea eb Ia Ib. apply in_app_or in Ib as [Ib|[<-|Ib]].
        -- apply LMR; auto. apply in_or_app. now left.
        -- unfold keys_lt in cutL. rewrite Forall_forall in cutL.
           apply cutL in Ia. simpl. lia.
        -- apply LMR; auto. apply in_or_app. now right.
  - (* no resized entry *)
    rewrite (keep_strip keyBegin val M) at 2.
    rewrite <- !app_assoc, (app_assoc L).
    rewrite erase_all_block.
    2:{ rewrite <- !app_assoc, (app_assoc (keep_head _ _ _)), <- keep_strip.
        exact wf. }
    destruct R as [|[k1 x1] R1]; cbn [hit_end].
    + cbn [erase_all app]. now rewrite <- app_assoc.
    + destruct (negb (keyEnd <? k1) && veqb x1 val);
        [|cbn [erase_all app]; now rewrite <- app_assoc].
      cbn [erase_all tl app].
      assert (WF' : well_formed ((L ++ keep_head keyBegin val M) ++ (k1, x1) :: R1)).
      { rewrite (keep_strip keyBegin val M), <- !app_assoc, (app_assoc L) in wf.
        apply well_formed_drop_mid in wf. exact wf. }
      rewrite deref_app, erase_app by (eapply well_formed_mid_fresh; exact WF').
      now rewrite <- app_assoc.
Qed.
End Cut.
End Blocks.

Section Insert.
Context {V : Type} `{EqComparable V}.
Implicit Types (s r A B C L M R T : store V) (k key : K) (x p q : V).

Lemma keep_head_cases keyBegin val M :
  keep_head keyBegin val M = [] \/ keep_head keyBegin val M = [(keyBegin, val)].
Proof.
  destruct M as [|[k x] M]; simpl; [now left|].
  destruct ((k =? keyBegin) && veqb x val) eqn:E; [right|now left].
  apply andb_prop in E as [Ek Ex].
  apply Z.eqb_eq in Ek. apply veqb_spec in Ex. now subst.
Qed.

Lemma insert_interval_cut keyBegin val L Kp T0 :
  keys_lt keyBegin L ->
  Kp = [] \/ Kp = [(keyBegin, val)] ->
  well_formed ((keyBegin, val) :: T0) ->
  insert_interval keyBegin val (L ++ Kp ++ T0)
  = (merge_back keyBegin val L (merge_forward val T0),
     if empty T0 then [DerefEnd] else []).
Proof.
  intros HL HK W. unfold insert_interval.
  assert (insert_or_assign keyBegin val (L ++ Kp ++ T0)
          = L ++ (keyBegin, val) :: T0) as ->.
  { rewrite insert_or_assign_app by exact HL. f_equal.
    destruct HK as [->| ->]; cbn [app].
    - apply insert_or_assign_front. intros en I.
      now apply (keys_gt_tail keyBegin val T0).
    - apply insert_or_assign_same. }
  cbn [it_eqb end_ negb].
  rewrite next_app by assumption.
  assert (forall T, begin_ (L ++ (keyBegin, val) :: T)
                    = match L with [] => Some keyBegin | (k0, _) :: _ => Some k0 end) as Bg.
  { intros T. now destruct L as [|[k0 x0] L']. }
  assert (forall T (fs : list fault),
    (let s5 :=
       if negb (it_eqb (Some keyBegin) (begin_ (L ++ (keyBegin, val) :: T)))
       then match prev keyBegin (L ++ (keyBegin, val) :: T) with
            | Some (_, x0) =>
                if veqb x0 val then erase keyBegin (L ++ (keyBegin, val) :: T)
                else L ++ (keyBegin, val) :: T
            | None => L ++ (keyBegin, val) :: T
            end
       else L ++ (keyBegin, val) :: T in (s5, fs))
    = (merge_back keyBegin val L T, fs)) as Back.
  { intros T fs. cbn zeta. f_equal. rewrite Bg, prev_app by exact HL.
    unfold merge_back. destruct L as [|[k0 x0] L'].
    - cbn. now rewrite Z.eqb_refl.
    - inversion HL; subst. simpl in H2. cbn [it_eqb].
      replace (keyBegin =? k0) with false by (symmetry; apply Z.eqb_neq; lia).
      cbn [negb].
      destruct (rbegin_some ((k0, x0) :: L')) as (k1 & x1 & ->); [discriminate|].
      destruct (veqb x1 val); [|reflexivity].
      apply erase_app. now apply (keys_lt_neq keyBegin). }
  destruct T0 as [|[k' x'] T1]; cbn [hd_error merge_forward empty].
  - apply Back.
  - destruct (veqb x' val).
    + replace (erase k' (L ++ (keyBegin, val) :: (k', x') :: T1))
        with (L ++ (keyBegin, val) :: T1); [apply Back|].
      symmetry.
      change (L ++ (keyBegin, val) :: (k', x') :: T1)
        with (L ++ [(keyBegin, val)] ++ (k', x') :: T1).
      rewrite app_assoc, erase_app; [now rewrite <- app_assoc|].
      pose proof (keys_gt_tail keyBegin val _ (k', x') W (or_introl eq_refl)) as G.
      simpl in G. intros en I. apply in_app_or in I as [I|[<-|[]]]; simpl; [|lia].
      unfold keys_lt in HL. rewrite Forall_forall in HL. apply HL in I. lia.
    + apply Back.
Qed.

(** The forward merge leaves the tail described by [forward_tail]. *)
Lemma merge_forward_cleared keyEnd val M R p :
  no_repeat p R = true ->
  merge_forward val (cleared_tail keyEnd val M R) = forward_tail keyEnd val M R.
Proof.
  intros C. unfold cleared_tail, rest_after, forward_tail.
  destruct R as [|[k1 x1] R1].
  - reflexivity.
  - destruct (carries keyEnd val M ((k1, x1) :: R1)) eqn:Ec.
    + unfold carries in Ec. apply andb_prop in Ec as [Ex Ek].
      apply negb_true_iff in Ex. cbn [app merge_forward hit_end].
      now rewrite Ex, Ek.
    + cbn [app hit_end]. apply no_repeat_cons in C as [_ C].
      destruct (veqb x1 val) eqn:Ex.
      * apply veqb_spec in Ex. subst x1.
        destruct (negb (keyEnd <? k1)); cbn [andb tl merge_forward].
        -- destruct R1 as [|[k2 x2] R2]; [reflexivity|].
           apply no_repeat_cons in C as [C _]. apply veqb_neq in C.
           cbn [merge_forward]. now rewrite C.
        -- now rewrite veqb_refl.
      * rewrite andb_false_r. cbn [merge_forward]. now rewrite Ex.
Qed.
End Insert.

Section Settle.
Context {V : Type} `{EqComparable V}.
Implicit Types (s r A B C L M R T : store V) (k key : K) (x p q : V).

Lemma rbegin_none_last_val p L : rbegin L = None -> last_val p L = p.
Proof. intros E. apply rbegin_nil_inv in E. now subst. Qed.

Lemma canonize_top_settled valBegin keyBegin val L T :
  no_repeat valBegin L = true -> no_repeat val T = true ->
  canonize_top valBegin (merge_back keyBegin val L T)
  = L ++ settled_mid valBegin keyBegin val L ++ T.
Proof.
  intros CL CT. unfold merge_back, settled_mid.
  destruct (rbegin L) as [[k1 x1]|] eqn:E.
  - rewrite (rbegin_last_val valBegin _ _ _ E).
    assert (forall r, canonize_top valBegin (L ++ r) = L ++ r) as Top.
    { intros r. destruct L as [|[k0 x0] L']; [discriminate|].
      apply no_repeat_cons in CL as [N _]. apply veqb_neq in N.
      cbn. now rewrite N. }
    destruct (veqb x1 val); apply Top.
  - rewrite (rbegin_none_last_val _ _ E). apply rbegin_nil_inv in E. subst L.
    cbn [canonize_top app]. rewrite (veqb_sym valBegin val).
    destruct (veqb val valBegin) eqn:E'; [|reflexivity].
    apply veqb_spec in E'. subst. now apply canonize_top_chain.
Qed.

Lemma last_val_settled valBegin keyBegin val L :
  last_val valBegin (L ++ settled_mid valBegin keyBegin val L) = val.
Proof.
  rewrite last_val_app. unfold settled_mid.
  destruct (veqb (last_val valBegin L) val) eqn:E; [|reflexivity].
  now apply veqb_spec in E.
Qed.

Lemma no_repeat_settled valBegin keyBegin val L T :
  no_repeat valBegin L = true -> no_repeat val T = true ->
  no_repeat valBegin (L ++ settled_mid valBegin keyBegin val L ++ T) = true.
Proof.
  intros CL CT. rewrite no_repeat_app, CL. cbn [andb]. unfold settled_mid.
  destruct (veqb (last_val valBegin L) val) eqn:E; cbn [app].
  - apply veqb_spec in E. now rewrite E.
  - apply no_repeat_cons. split; [|exact CT].
    apply veqb_neq in E. congruence.
Qed.

Lemma settled_mid_keys valBegin keyBegin keyEnd val L :
  keyBegin < keyEnd ->
  keys_ge keyBegin (settled_mid valBegin keyBegin val L)
  /\ keys_lt keyEnd (settled_mid valBegin keyBegin val L).
Proof.
  intros range. unfold settled_mid. destruct (veqb (last_val valBegin L) val).
  - split; constructor.
  - split; (constructor; [simpl; lia|constructor]).
Qed.

(** Bounding the tail of a store that ends, before [T], on the value [val]. *)
Lemma bound_tail_app valBegin last_key val P T :
  last_val valBegin P = val -> keys_lt last_key P ->
  (T <> [] -> last_val val T = valBegin) ->
  bound_tail last_key valBegin (P ++ T)
  = P ++ (if empty T && negb (veqb val valBegin)
          then [(last_key, valBegin)] else T).
Proof.
  intros LP KP LT. unfold bound_tail.
  destruct T as [|e T]; cbn [empty andb].
  - rewrite app_nil_r. destruct P as [|e P].
    + simpl in LP. subst. now rewrite veqb_refl.
    + cbn [empty].
      destruct (rbegin_some (e :: P)) as (k & x & E); [discriminate|].
      rewrite E. rewrite (rbegin_last_val valBegin _ _ _ E) in LP. subst x.
      destruct (veqb val valBegin); cbn [negb]; [now rewrite app_nil_r|].
      now apply insert_or_assign_end.
  - specialize (LT ltac:(discriminate)).
    assert (empty (P ++ e :: T) = false) as -> by now destruct P.
    rewrite rbegin_app_cons.
    destruct (rbegin_some (e :: T)) as (k & x & E); [discriminate|].
    rewrite E. rewrite (rbegin_last_val val _ _ _ E) in LT. subst x.
    now rewrite veqb_refl.
Qed.
End Settle.

(** ** The general case in closed form *)

Section ClosedForm.
Context {V : Type} `{EqComparable V}.
Implicit Types (s r A B C T : store V) (k key : K) (x p q : V).
Variables (valBegin : V) (keyBegin keyEnd : K) (val : V) (L M R : store V).
Hypothesis range : keyBegin < keyEnd.
Hypothesis wf : well_formed (L ++ M ++ R).
Hypothesis cutL : keys_lt keyBegin L.
Hypothesis cutM : keys_ge keyBegin M.
Hypothesis cutM' : keys_lt keyEnd M.
Hypothesis cutR : keys_ge keyEnd R.
Hypothesis chain : no_repeat valBegin (L ++ M ++ R) = true.
Hypothesis closed : last_val valBegin (L ++ M ++ R) = valBegin.

Let wfL : well_formed L.
Proof. eapply well_formed_app_l; exact wf. Qed.

Let wfR : well_formed R.
Proof. eapply well_formed_app_r, well_formed_app_r; exact wf. Qed.

Let chainL : no_repeat valBegin L = true.
Proof. rewrite no_repeat_app in chain. now apply andb_prop in chain. Qed.

Let chainR : no_repeat (last_val valBegin (L ++ M)) R = true.
Proof.
  rewrite app_assoc, no_repeat_app in chain. now apply andb_prop in chain.
Qed.

Lemma forward_tail_keys : keys_ge keyEnd (forward_tail keyEnd val M R).
Proof.
  unfold forward_tail. destruct R as [|[k1 x1] R1]; [constructor|].
  destruct (carries keyEnd val M ((k1, x1) :: R1)).
  - constructor; [simpl; lia|exact cutR].
  - destruct (veqb x1 val); [|exact cutR]. now apply Forall_inv_tail in cutR.
Qed.

Lemma forward_tail_wf : well_formed (forward_tail keyEnd val M R).
Proof.
  unfold forward_tail. destruct R as [|[k1 x1] R1] eqn:ER; [constructor|].
  destruct (carries keyEnd val M ((k1, x1) :: R1)) eqn:Ec.
  - unfold carries in Ec. apply andb_prop in Ec as [_ Ek]. apply Z.ltb_lt in Ek.
    apply well_formed_cons. split; [exact wfR|].
    unfold keys. rewrite Forall_map. apply Forall_forall.
    intros en [<-|I]; simpl; [lia|].
    pose proof (keys_gt_tail k1 x1 R1 en wfR I). lia.
  - destruct (veqb x1 val); [|exact wfR].
    now apply well_formed_cons in wfR.
Qed.

Lemma forward_tail_chain : no_repeat val (forward_tail keyEnd val M R) = true.
Proof.
  unfold forward_tail. destruct R as [|[k1 x1] R1] eqn:ER; [reflexivity|].
  destruct (carries keyEnd val M ((k1, x1) :: R1)) eqn:Ec.
  - unfold carries in Ec. apply andb_prop in Ec as [Ex _].
    apply negb_true_iff in Ex.
    apply no_repeat_cons. split; [now apply veqb_neq|].
    assert (M <> []) as NM.
    { intros ->. simpl in Ex. now rewrite veqb_refl in Ex. }
    rewrite last_val_app in chainR.
    now rewrite (last_val_nonempty val (last_val valBegin L)).
  - pose proof chainR as C. apply no_repeat_cons in C as [_ C].
    destruct (veqb x1 val) eqn:Ex.
    + apply veqb_spec in Ex. now subst.
    + apply no_repeat_cons. split; [now apply veqb_neq|exact C].
Qed.

Lemma last_val_R p : R <> [] -> last_val p R = valBegin.
Proof.
  intros N. rewrite app_assoc, last_val_app in closed.
  now rewrite (last_val_nonempty p (last_val valBegin (L ++ M))).
Qed.

Lemma forward_tail_last p :
  forward_tail keyEnd val M R <> [] ->
  last_val p (forward_tail keyEnd val M R) = valBegin.
Proof.
  pose proof (last_val_R p) as LR.
  unfold forward_tail. destruct R as [|[k1 x1] R1] eqn:ER; [easy|].
  intros N. specialize (LR ltac:(discriminate)).
  destruct (carries keyEnd val M ((k1, x1) :: R1)).
  - exact LR.
  - destruct (veqb x1 val); [|exact LR].
    rewrite <- LR. cbn [last_val]. now apply last_val_nonempty.
Qed.

Lemma last_key_of_ge : keyEnd <= last_key_of keyEnd (L ++ M ++ R).
Proof.
  unfold last_key_of. destruct (rbegin (L ++ M ++ R)) as [[k x]|]; [|lia].
  destruct (k <? keyEnd) eqn:E; [lia|]. now apply Z.ltb_ge in E.
Qed.

Let last_key := last_key_of keyEnd (L ++ M ++ R).
Let T' := closed_tail valBegin last_key keyEnd val M R.

Lemma closed_tail_keys : keys_ge keyEnd T'.
Proof.
  unfold T', closed_tail.
  destruct (empty (forward_tail keyEnd val M R) && negb (veqb val valBegin)).
  - constructor; [|constructor]. apply last_key_of_ge.
  - apply forward_tail_keys.
Qed.

Lemma closed_tail_wf : well_formed T'.
Proof.
  unfold T', closed_tail.
  destruct (empty (forward_tail keyEnd val M R) && negb (veqb val valBegin)).
  - repeat constructor.
  - apply forward_tail_wf.
Qed.

Lemma closed_tail_chain : no_repeat val T' = true.
Proof.
  unfold T', closed_tail.
  destruct (empty (forward_tail keyEnd val M R) && negb (veqb val valBegin)) eqn:E.
  - apply andb_prop in E as [_ E]. apply negb_true_iff in E.
    cbn. rewrite veqb_sym. now rewrite E.
  - apply forward_tail_chain.
Qed.

Lemma closed_tail_last : last_val val T' = valBegin.
Proof.
  unfold T', closed_tail.
  destruct (forward_tail keyEnd val M R) as [|e T] eqn:ET; cbn [empty andb].
  - destruct (veqb val valBegin) eqn:E; cbn [negb]; [|reflexivity].
    now apply veqb_spec in E.
  - rewrite <- ET. apply forward_tail_last. rewrite ET. discriminate.
Qed.

Lemma settled_wf_with T :
  well_formed T -> keys_ge keyEnd T ->
  well_formed (L ++ settled_mid valBegin keyBegin val L ++ T).
Proof.
  intros WT GT.
  apply (well_formed_join keyBegin); [exact wfL| |exact cutL|].
  - apply (well_formed_join keyEnd);
      [|exact WT|now apply (settled_mid_keys _ keyBegin)|exact GT].
    unfold settled_mid. destruct (veqb (last_val valBegin L) val);
      repeat constructor.
  - apply keys_ge_app. split; [now apply (settled_mid_keys _ _ keyEnd)|].
    eapply keys_ge_weaken; [|exact GT]. lia.
Qed.

Lemma settled_wf : well_formed (settled valBegin keyBegin keyEnd val L M R).
Proof. apply settled_wf_with; [apply closed_tail_wf|apply closed_tail_keys]. Qed.

Lemma cleared_tail_wf : well_formed ((keyBegin, val) :: cleared_tail keyEnd val M R).
Proof.
  assert (keys_ge keyEnd (cleared_tail keyEnd val M R)
          /\ well_formed (cleared_tail keyEnd val M R)) as [G W].
  { unfold cleared_tail, rest_after.
    assert (keys_ge keyEnd (tl R) /\ well_formed (tl R)) as [Gt Wt].
    { destruct R as [|[k1 x1] R1]; [split; constructor|]. split.
      - now apply Forall_inv_tail in cutR.
      - now apply well_formed_cons in wfR. }
    destruct (carries keyEnd val M R) eqn:Ec.
    - unfold carries in Ec. destruct R as [|[k1 x1] R1] eqn:ER; [discriminate|].
      apply andb_prop in Ec as [_ Ek].
      cbn [hit_end]. rewrite Ek. cbn [negb andb app]. apply Z.ltb_lt in Ek. split.
      + constructor; [simpl; lia|exact cutR].
      + apply well_formed_cons. split; [exact wfR|].
        unfold keys. rewrite Forall_map. apply Forall_forall.
        intros en [<-|I]; simpl; [lia|].
        pose proof (keys_gt_tail k1 x1 R1 en wfR I). lia.
    - cbn [app]. destruct (hit_end keyEnd val R); auto. }
  apply well_formed_cons. split; [exact W|].
  unfold keys. rewrite Forall_map.
  eapply Forall_impl; [|exact G]. simpl. intros; lia.
Qed.

Lemma settled_chain : no_repeat valBegin (settled valBegin keyBegin keyEnd val L M R) = true.
Proof. apply no_repeat_settled; [exact chainL|apply closed_tail_chain]. Qed.

Lemma settled_last : last_val valBegin (settled valBegin keyBegin keyEnd val L M R) = valBegin.
Proof.
  unfold settled. rewrite app_assoc, last_val_app, last_val_settled.
  apply closed_tail_last.
Qed.

Theorem assign_run_cut :
  result (assign_run {| m_valBegin := valBegin; m_map := L ++ M ++ R |}
            keyBegin keyEnd val)
  = {| m_valBegin := valBegin; m_map := (settled valBegin keyBegin keyEnd val L M R) |}.
Proof.
  unfold assign_run. cbn [m_valBegin m_map].
  replace (keyBegin <? keyEnd) with true by (symmetry; apply Z.ltb_lt; lia).
  cbn [negb].
  destruct (empty (L ++ M ++ R)) eqn:Em.
  - (* the trivial map *)
    assert (L = [] /\ M = [] /\ R = []) as (EL & EM & ER).
    { destruct L; [|discriminate]. destruct M; [|discriminate].
      destruct R; [|discriminate]. auto. }
    unfold settled, T', closed_tail, last_key, settled_mid.
    rewrite EL, EM, ER. cbn. rewrite (veqb_sym valBegin val).
    destruct (veqb val valBegin) eqn:E; cbn; [reflexivity|].
    now replace (keyBegin <? keyEnd) with true by (symmetry; apply Z.ltb_lt; lia).
  - rewrite (delete_overlapping_cut keyBegin keyEnd val L M R range wf
               cutL cutM cutM' cutR valBegin chain).
    rewrite insert_interval_cut;
      [|exact cutL|apply keep_head_cases|apply cleared_tail_wf].
    cbn [result]. f_equal.
    rewrite (merge_forward_cleared keyEnd val M R _ chainR).
    rewrite canonize_top_settled by (exact chainL || apply forward_tail_chain).
    rewrite canonize_tail_chain.
    2:{ apply settled_wf_with; [apply forward_tail_wf|apply forward_tail_keys]. }
    2:{ apply no_repeat_settled; [exact chainL|apply forward_tail_chain]. }
    rewrite (app_assoc L (settled_mid valBegin keyBegin val L)).
    rewrite (bound_tail_app valBegin _ val
               (L ++ settled_mid valBegin keyBegin val L)).
    + unfold settled, T', closed_tail, last_key. now rewrite <- app_assoc.
    + apply last_val_settled.
    + match goal with
      | |- keys_lt ?lk _ => assert (keyEnd <= lk) as G by exact last_key_of_ge
      end.
      apply keys_lt_app. split.
      * eapply keys_lt_weaken; [|exact cutL]. lia.
      * eapply keys_lt_weaken; [exact G|]. now apply settled_mid_keys.
    + apply forward_tail_last.
Qed.
End ClosedForm.

(** ** Valid maps stay valid *)

Section Validity.
Context {V : Type} `{EqComparable V}.
Implicit Types (s : store V) (m : interval_map V) (k : K) (x p q : V).

Lemma cut_store keyBegin keyEnd s :
  well_formed s ->
  let L := below keyBegin s in
  let M := below keyEnd (lower_bound keyBegin s) in
  let R := lower_bound keyEnd (lower_bound keyBegin s) in
  s = L ++ M ++ R
  /\ keys_lt keyBegin L /\ keys_ge keyBegin M
  /\ keys_lt keyEnd M /\ keys_ge keyEnd R.
Proof.
  intros W L M R.
  assert (s = L ++ M ++ R) as E.
  { unfold L, M, R. now rewrite <- !below_lower_bound. }
  assert (well_formed (lower_bound keyBegin s)) as W'.
  { rewrite (below_lower_bound keyBegin s) in W.
    now apply well_formed_app_r in W. }
  pose proof (keys_ge_lower_bound keyBegin s W) as G.
  rewrite (below_lower_bound keyEnd (lower_bound keyBegin s)) in G.
  apply keys_ge_app in G as [G _].
  repeat split; auto.
  - apply keys_lt_below.
  - apply keys_lt_below.
  - now apply keys_ge_lower_bound.
Qed.

Lemma valid_make (val : V) : valid (make val).
Proof. repeat split. constructor. Qed.

(** The map after a call in the general position, in closed form. *)
Lemma assign_settled m keyBegin keyEnd val :
  valid m -> keyBegin < keyEnd ->
  assign m keyBegin keyEnd val
  = {| m_valBegin := m_valBegin m;
       m_map := settled (m_valBegin m) keyBegin keyEnd val
                  (below keyBegin (m_map m))
                  (below keyEnd (lower_bound keyBegin (m_map m)))
                  (lower_bound keyEnd (lower_bound keyBegin (m_map m))) |}.
Proof.
  intros (W & C & S) Lt. destruct m as [d s]. cbn [m_valBegin m_map] in *.
  rewrite is_canonical_no_repeat in C. unfold last_is_default in S.
  cbn [m_valBegin m_map] in *.
  destruct (cut_store keyBegin keyEnd s W) as (E & HL & HM & HM' & HR).
  unfold assign. rewrite E at 1.
  rewrite E in W, C, S.
  now apply assign_run_cut.
Qed.

Lemma assign_valid m keyBegin keyEnd val :
  valid m -> valid (assign m keyBegin keyEnd val).
Proof.
  intros Vm. destruct (Z.lt_ge_cases keyBegin keyEnd) as [Lt|Ge].
  - rewrite (assign_settled m keyBegin keyEnd val Vm Lt).
    destruct Vm as (W & C & S). destruct m as [d s].
    cbn [m_valBegin m_map] in *.
    rewrite is_canonical_no_repeat in C. unfold last_is_default in S.
    cbn [m_valBegin m_map] in *.
    destruct (cut_store keyBegin keyEnd s W) as (E & HL & HM & HM' & HR).
    rewrite E in W, C, S.
    unfold valid. rewrite is_canonical_no_repeat. unfold last_is_default.
    cbn [m_valBegin m_map]. repeat split.
    + now apply settled_wf.
    + now apply settled_chain.
    + now apply settled_last.
  - rewrite assign_degenerate by lia. exact Vm.
Qed.

Lemma states_valid m cs : valid m -> Forall valid (states m cs).
Proof.
  revert m. induction cs as [|[[b e] v] cs IH]; intros m Vm; simpl.
  - constructor.
  - pose proof (assign_valid m b e v Vm) as V'.
    constructor; [exact V'|now apply IH].
Qed.

(** A valid map holds no entry or at least two. *)
Lemma valid_size m : valid m -> size m = 0%nat \/ (2 <= size m)%nat.
Proof.
  intros (W & C & S). rewrite is_canonical_no_repeat in C.
  unfold last_is_default, size, map_size in *.
  destruct (m_map m) as [|[k x] [|e r]]; simpl; [now left| |right; lia].
  apply no_repeat_cons in C as [N _]. simpl in S. contradiction.
Qed.

Lemma valid_rbegin m :
  valid m ->
  match rbegin (m_map m) with
  | Some (_, x) => x = m_valBegin m
  | None => True
  end.
Proof.
  intros (_ & _ & S). unfold last_is_default in S.
  destruct (rbegin (m_map m)) as [[k x]|] eqn:E; [|exact I].
  now rewrite (rbegin_last_val _ _ _ _ E) in S.
Qed.

(** *** Idempotence *)

Lemma closed_tail_fixed valBegin last_key keyEnd val M T :
  last_val val M = val -> no_repeat val T = true ->
  last_val val T = valBegin ->
  closed_tail valBegin last_key keyEnd val M T = T.
Proof.
  intros LM C LT. unfold closed_tail, forward_tail, carries.
  destruct T as [|[k1 x1] T1].
  - simpl in LT. subst. now rewrite veqb_refl.
  - rewrite LM, veqb_refl. cbn [negb andb].
    apply no_repeat_cons in C as [N _]. apply veqb_neq in N. now rewrite N.
Qed.

Lemma settled_mid_last valBegin keyBegin val L :
  last_val val (settled_mid valBegin keyBegin val L) = val.
Proof. unfold settled_mid. now destruct (veqb (last_val valBegin L) val). Qed.

Lemma assign_twice m keyBegin keyEnd val :
  valid m ->
  assign (assign m keyBegin keyEnd val) keyBegin keyEnd val
  = assign m keyBegin keyEnd val.
Proof.
  intros Vm. destruct (Z.lt_ge_cases keyBegin keyEnd) as [Lt|Ge].
  2:{ now rewrite !assign_degenerate by lia. }
  rewrite (assign_settled m keyBegin keyEnd val Vm Lt).
  destruct Vm as (W & C & S). destruct m as [d s].
  cbn [m_valBegin m_map] in *.
  rewrite is_canonical_no_repeat in C. unfold last_is_default in S.
  cbn [m_valBegin m_map] in *.
  destruct (cut_store keyBegin keyEnd s W) as (E & HL & HM & HM' & HR).
  set (L := below keyBegin s) in *.
  set (M := below keyEnd (lower_bound keyBegin s)) in *.
  set (R := lower_bound keyEnd (lower_bound keyBegin s)) in *.
  rewrite E in W, C, S.
  assert (W1 : well_formed (settled d keyBegin keyEnd val L M R))
    by now apply settled_wf.
  assert (C1 : no_repeat d (settled d keyBegin keyEnd val L M R) = true)
    by now apply settled_chain.
  assert (S1 : last_val d (settled d keyBegin keyEnd val L M R) = d)
    by now apply settled_last.
  unfold assign, settled in *.
  set (T' := closed_tail d (last_key_of keyEnd (L ++ M ++ R)) keyEnd val M R) in *.
  assert (K1 : keys_ge keyEnd T')
    by (unfold T'; eapply closed_tail_keys; eassumption).
  assert (CT : no_repeat val T' = true)
    by (unfold T'; eapply closed_tail_chain; eassumption).
  assert (LT : last_val val T' = d)
    by (unfold T'; eapply closed_tail_last; eassumption).
  destruct (settled_mid_keys d keyBegin keyEnd val L Lt) as [KM KM'].
  rewrite (assign_run_cut d keyBegin keyEnd val L
             (settled_mid d keyBegin val L) T' Lt W1 HL KM KM' K1 C1 S1).
  f_equal. unfold settled. do 2 f_equal.
  apply closed_tail_fixed; [apply settled_mid_last|exact CT|exact LT].
Qed.
End Validity.

(** ** Assigning the default value over the whole span *)

Section Collapse.
Context {V : Type} `{EqComparable V}.
Implicit Types (s r : store V) (m : interval_map V) (k : K) (x p q : V).

Lemma deref_none k s : deref k s = None -> forall en, In en s -> fst en <> k.
Proof.
  induction s as [|[k' x'] r IH]; intros D en I; [easy|].
  simpl in D. destruct (k' =? k) eqn:E; [discriminate|].
  apply Z.eqb_neq in E. destruct I as [<-|I]; [exact E|now apply IH].
Qed.

Lemma erase_in k s en :
  well_formed s -> In en (erase k s) -> In en s /\ fst en <> k.
Proof.
  induction s as [|[k' x'] r IH]; intros W I; [easy|].
  simpl in I. destruct (k' =? k) eqn:E.
  - apply Z.eqb_eq in E. subst k'. split; [now right|].
    pose proof (keys_gt_tail k x' r en W I). lia.
  - apply Z.eqb_neq in E. destruct I as [<-|I]; [split; [now left|exact E]|].
    apply well_formed_cons in W as [W _].
    destruct (IH W I). split; [now right|assumption].
Qed.

Lemma erase_well_formed k s : well_formed s -> well_formed (erase k s).
Proof.
  induction s as [|[k' x'] r IH]; intros W; [exact W|].
  simpl. destruct (k' =? k).
  - now apply well_formed_cons in W.
  - pose proof W as W'. apply well_formed_cons in W' as [Wr _].
    apply well_formed_cons. split; [now apply IH|].
    unfold keys. rewrite Forall_map. apply Forall_forall. intros en I.
    apply (erase_in k r en Wr) in I as [I _].
    exact (keys_gt_tail k' x' r en W I).
Qed.

Lemma erase_all_in ks s fs en :
  well_formed s -> In en (fst (erase_all ks s fs)) ->
  In en s /\ ~ In (fst en) ks.
Proof.
  revert s fs. induction ks as [|k ks IH]; intros s fs W I; simpl in *.
  - auto.
  - destruct (deref k s) eqn:D.
    + apply IH in I as [I N]; [|now apply erase_well_formed].
      apply erase_in in I as [I N']; [|exact W].
      split; [exact I|]. intros [E|I']; [congruence|contradiction].
    + apply IH in I as [I N]; [|exact W].
      split; [exact I|]. intros [E|I']; [|contradiction].
      apply (deref_none k s D en I). congruence.
Qed.

Lemma erase_all_well_formed ks s fs :
  well_formed s -> well_formed (fst (erase_all ks s fs)).
Proof.
  revert s fs. induction ks as [|k ks IH]; intros s fs W; simpl.
  - exact W.
  - destruct (deref k s); apply IH; [now apply erase_well_formed|exact W].
Qed.

(** Inside the range the scan notes no [resized] entry as long as the next
    key is below [keyEnd] too, and it collects every key but [keyBegin]. *)
Lemma scan_inside keyBegin keyEnd val s st :
  keys_ge keyBegin s -> keys_lt keyEnd s ->
  let st' := scan keyBegin keyEnd val s st in
  resized st' = resized st
  /\ (forall k, In k (will_delete st) -> In k (will_delete st'))
  /\ (forall en, In en s -> fst en <> keyBegin -> In (fst en) (will_delete st')).
Proof.
  revert st. induction s as [|[k x] r IH]; intros st G L; cbn zeta.
  - simpl. repeat split; auto. intros en [].
  - inversion G as [|? ? Gk Gr]; inversion L as [|? ? Lk Lr]; subst.
    simpl in Gk, Lk. cbn [scan].
    replace (k <? keyEnd) with true by (symmetry; apply Z.ltb_lt; lia).
    set (st1 := scan_body keyBegin keyEnd val k x (hd_error r) st).
    assert (resized st1 = resized st
            /\ (forall k', In k' (will_delete st) -> In k' (will_delete st1))
            /\ (k <> keyBegin -> In k (will_delete st1))) as (R1 & M1 & K1).
    { unfold st1, scan_body.
      destruct (negb (keyBegin <? k) && negb (k <? keyBegin) && veqb x val) eqn:C1.
      - assert (k = keyBegin) as ->.
        { apply andb_prop in C1 as [C1 _]. apply andb_prop in C1 as [A B].
          apply negb_true_iff, Z.ltb_ge in A. apply negb_true_iff, Z.ltb_ge in B.
          lia. }
        destruct (hd_error r) as [[k' x']|]; [|now repeat split].
        destruct (veqb x' val); [|now repeat split].
        repeat split; [|easy]. intros k0 I. cbn. apply in_or_app. now left.
      - destruct (negb (keyEnd <? k) && veqb x val).
        + repeat split; cbn; intros; apply in_or_app; [now left|right; now left].
        + replace (negb (k <? keyBegin) && (k <? keyEnd)) with true.
          2:{ symmetry. apply andb_true_intro. split.
              - apply negb_true_iff, Z.ltb_ge. lia.
              - apply Z.ltb_lt. lia. }
          assert (match hd_error r with
                  | Some (k', _) =>
                      if keyEnd <? k' then set_resized (keyEnd, x) st else st
                  | None => st
                  end = st) as ->.
          { destruct r as [|[k' x'] r']; [reflexivity|]. cbn.
            apply Forall_inv in Lr. simpl in Lr.
            now replace (keyEnd <? k') with false by (symmetry; apply Z.ltb_ge; lia). }
          repeat split; cbn; intros; apply in_or_app; [now left|right; now left]. }
    destruct (IH st1 Gr Lr) as (R2 & M2 & K2). cbn zeta in *.
    repeat split.
    + congruence.
    + auto.
    + intros en [<-|I] N; [apply M2, K1; exact N|now apply K2].
Qed.

Lemma rbegin_max s k x :
  well_formed s -> rbegin s = Some (k, x) -> forall en, In en s -> fst en <= k.
Proof.
  induction s as [|[k0 x0] r IH]; intros W E en I; [easy|].
  destruct r as [|e r].
  - unfold rbegin in E. simpl in E. inversion E; subst.
    destruct I as [<-|[]]. simpl. lia.
  - rewrite rbegin_cons in E. pose proof W as W'.
    apply well_formed_cons in W' as [Wr _].
    destruct I as [<-|I]; [|now apply IH].
    pose proof (keys_gt_tail k0 x0 _ e W (or_introl eq_refl)).
    pose proof (IH Wr E e (or_introl eq_refl)). simpl. lia.
Qed.

Lemma single_key_store k s :
  well_formed s -> (forall en, In en s -> fst en = k) ->
  s = [] \/ exists x, s = [(k, x)].
Proof.
  intros W A. destruct s as [|[k0 x0] [|e r]]; [now left| |].
  - right. exists x0. now rewrite <- (A (k0, x0) (or_introl eq_refl)).
  - pose proof (keys_gt_tail k0 x0 _ e W (or_introl eq_refl)) as G.
    pose proof (A (k0, x0) (or_introl eq_refl)).
    pose proof (A e (or_intror (or_introl eq_refl))). simpl in *. lia.
Qed.

Lemma span_keys keyBegin keyEnd s :
  well_formed s ->
  (forall k x, hd_error s = Some (k, x) -> keyBegin <= k) ->
  (forall k x, rbegin s = Some (k, x) -> k < keyEnd) ->
  keys_ge keyBegin s /\ keys_lt keyEnd s.
Proof.
  intros W First Last. split; apply Forall_forall; intros en I.
  - destruct s as [|[k0 x0] r]; [easy|].
    specialize (First k0 x0 eq_refl).
    pose proof (well_formed_cons_fst (k0, x0) r (fst en) W (in_map fst _ _ I)).
    simpl in *. lia.
  - destruct (rbegin_some s) as (k & x & E); [now destruct s|].
    specialize (Last k x E). pose proof (rbegin_max s k x W E en I). lia.
Qed.

Lemma assign_run_default_span m keyBegin keyEnd :
  well_formed (m_map m) -> keyBegin < keyEnd ->
  keys_ge keyBegin (m_map m) -> keys_lt keyEnd (m_map m) ->
  m_map (assign m keyBegin keyEnd (m_valBegin m)) = [].
Proof.
  intros W Lt G L. destruct m as [d s]. cbn [m_valBegin m_map] in *.
  unfold assign, assign_run. cbn [m_valBegin m_map].
  replace (keyBegin <? keyEnd) with true by (symmetry; apply Z.ltb_lt; lia).
  cbn [negb]. destruct (empty s) eqn:Em.
  - rewrite veqb_refl. cbn. now destruct s.
  - unfold delete_overlapping.
    assert (lower_bound keyBegin s = s) as ->.
    { apply (lower_bound_app keyBegin [] s); [constructor|exact G]. }
    destruct (scan_inside keyBegin keyEnd d s
                {| resized := None; will_delete := [] |} G L) as (Rz & _ & Wd).
    cbn zeta in *. cbn [resized] in Rz. rewrite Rz. clear Rz.
    set (ks := will_delete (scan keyBegin keyEnd d s
                              {| resized := None; will_delete := [] |})) in *.
    pose proof (erase_all_well_formed ks s [] W) as W2.
    pose proof (fun en => erase_all_in ks s [] en W) as I2.
    destruct (erase_all ks s []) as [s2 fs2]. cbn [fst] in *.
    cbv beta iota zeta.
    assert (s2 = [] \/ exists x, s2 = [(keyBegin, x)]) as Shape.
    { apply single_key_store; [exact W2|]. intros en I.
      destruct (I2 en I) as [Is N].
      destruct (Z.eq_dec (fst en) keyBegin) as [E|D]; [exact E|].
      exfalso. apply N. now apply Wd. }
    assert (insert_interval keyBegin d s2 = ([(keyBegin, d)], [DerefEnd])) as ->.
    { unfold insert_interval.
      assert (insert_or_assign keyBegin d s2 = [(keyBegin, d)]) as ->.
      { destruct Shape as [->|[x ->]]; cbn; [reflexivity|].
        now rewrite Z.ltb_irrefl. }
      unfold next. cbn. rewrite Z.ltb_irrefl. cbn. now rewrite Z.eqb_refl. }
    cbn. now rewrite veqb_refl.
Qed.
End Collapse.

(** * The properties of the specification *)

Lemma well_formed_one_interval : well_formed (m_map Scenarios.one_interval).
Proof. repeat constructor. Qed.

(** C1 -- Pointwise correctness fails when the assigned range lies strictly
    inside one stored interval.  On the map with boundaries
    [0 -> 'B', 3 -> 'A'] (default ['A']), [assign(1, 2, 'C')] stays within
    defined behaviour and leaves [0 -> 'B', 1 -> 'C', 3 -> 'A']: the key 2
    lies outside [1, 2) and held ['B'] before the call, yet holds ['C'] after
    it.  No entry is stored inside the range, so the loop never notes a
    [resized] entry for [keyEnd]. *)
Theorem assign_inside_interval_overwrites_tail :
  let m := Scenarios.one_interval in
  m_map m = [(0, "B"); (3, "A")]%char
  /\ valueAt m 2 = "B"%char
  /\ faults (assign_run m 1 2 "C"%char) = []
  /\ m_map (assign m 1 2 "C"%char) = [(0, "B"); (1, "C"); (3, "A")]%char
  /\ valueAt (assign m 1 2 "C"%char) 2 = "C"%char.
Proof. repeat split. Qed.

(** C2, as stated, fails: the map with the single boundary [4 -> 'B']
    (default ['A']) is canonical, and [assign(0, 1, 'A')], which goes through
    no fault, leaves the single boundary [4 -> 'A'], which is not. *)
Lemma canonical_start_not_preserved :
  let m := Scenarios.open_ended in
  well_formed (m_map m)
  /\ is_canonical m = true
  /\ faults (assign_run m 0 1 "A"%char) = []
  /\ m_map (assign m 0 1 "A"%char) = [(4, "A"%char)]
  /\ is_canonical (assign m 0 1 "A"%char) = false.
Proof. repeat split. repeat constructor. Qed.

Section Invariants.
Context {V : Type} `{EqComparable V}.

(** C2 (amended) -- Canonicity preservation.  For every sequence of
    [assign] calls applied to a map that starts canonical and whose last
    entry, if any, holds the default value (a freshly constructed map is
    one), [is_canonical] returns true after every call of the sequence. *)
Theorem canonicity_preserved (m : interval_map V) (cs : list call) :
  well_formed (m_map m) -> is_canonical m = true -> last_is_default m ->
  Forall (fun m' => is_canonical m' = true) (states m cs).
Proof.
  intros W C S.
  eapply Forall_impl; [|apply (states_valid m cs); now repeat split].
  now intros m' (_ & C' & _).
Qed.

(** C9 -- Trailing sentinel.  After every call of every sequence of
    [assign] calls applied to a freshly constructed map, the last entry of
    the store, if there is one, holds the default value. *)
Theorem trailing_default_entry (val : V) (cs : list call) :
  Forall (fun m' => match rbegin (m_map m') with
                    | Some (_, x) => x = m_valBegin m'
                    | None => True
                    end)
         (states (make val) cs).
Proof.
  eapply Forall_impl; [|apply (states_valid (make val) cs), valid_make].
  intros m'. apply valid_rbegin.
Qed.

(** C10 -- The size is never one.  After every call of every sequence of
    [assign] calls applied to a freshly constructed map, [size] is 0 or at
    least 2. *)
Theorem size_never_one (val : V) (cs : list call) :
  Forall (fun m' => size m' = 0%nat \/ (2 <= size m')%nat)
         (states (make val) cs).
Proof.
  eapply Forall_impl; [|apply (states_valid (make val) cs), valid_make].
  intros m'. apply valid_size.
Qed.
End Invariants.

Lemma canonicity_preserved_witness :
  Forall (fun m' => is_canonical m' = true)
         (states Scenarios.fresh [(1, 3, "B"); (3, 5, "C"); (2, 4, "A")]%char).
Proof.
  apply (canonicity_preserved Scenarios.fresh).
  - constructor.
  - reflexivity.
  - reflexivity.
Defined.

(** C3 -- An access past the end inside [assign].  After
    [assign(10, 20, 'B')] on a fresh map, [assign(30, 40, 'C')] inserts the
    entry at 30 as the last one, and the forward-merge step reads
    [what_after->second] with [what_after == m_map.end()]: the call is not
    within defined behaviour, although the map is canonical and the
    arguments are in order. *)
Theorem assign_past_last_key_derefs_end :
  let m := Scenarios.test_map in
  is_canonical m = true
  /\ m_map m = [(10, "B"); (20, "A")]%char
  /\ faults (assign_run m 30 40 "C"%char) = [DerefEnd]
  /\ assign_checked m 30 40 "C"%char = None.
Proof. repeat split. Qed.

Section LookupContract.
Context {V : Type} `{EqComparable V}.

(** C4 -- Lookup contract.  On every map (its store well formed, as a
    [std::map] always is) and for every key, [valueAt] returns the value of
    the greatest stored boundary key that is less than or equal to the key,
    and the default value when no stored key is less than or equal to it (in
    particular on the empty map).  [valueAt] is a function from the map and
    the key to a value: it has no map to return, so it cannot mutate. *)
Theorem valueAt_contract (m : interval_map V) (key : K) :
  well_formed (m_map m) ->
  (forall k x,
      In (k, x) (m_map m) -> k <= key ->
      (forall k', In k' (keys (m_map m)) -> k' <= key -> k' <= k) ->
      valueAt m key = x)
  /\ ((forall k, In k (keys (m_map m)) -> key < k) ->
      valueAt m key = m_valBegin m).
Proof.
  intros W. destruct (m_map m) as [|e r] eqn:E.
  - split.
    + intros k x [].
    + intros _. unfold valueAt. now rewrite E.
  - rewrite (valueAt_cons m key e r E W). split.
    + intros k x I L M.
      assert (fst e <= key) as L0.
      { pose proof (well_formed_cons_fst e r k W (in_keys _ _ _ I)). lia. }
      replace (key <? fst e) with false by (symmetry; apply Z.ltb_ge; lia).
      destruct (floor_from_spec e key r W L0) as (I' & B' & M').
      destruct (floor_from e key r) as [k' x'] eqn:F. cbn [fst snd] in *.
      assert (k' = k) as ->.
      { pose proof (M k' (in_keys _ _ _ I') B').
        pose proof (M' k (in_keys _ _ _ I) L). lia. }
      now apply (well_formed_functional (e :: r) k).
    + intros A. specialize (A (fst e) (or_introl eq_refl)).
      now replace (key <? fst e) with true by (symmetry; apply Z.ltb_lt; lia).
Qed.
End LookupContract.

Lemma valueAt_contract_witness :
  well_formed (m_map Scenarios.one_interval) /\
  valueAt Scenarios.one_interval 2 = "B"%char.
Proof.
  split; [exact well_formed_one_interval|].
  apply (proj1 (valueAt_contract Scenarios.one_interval 2
                  well_formed_one_interval) 0 "B"%char).
  - left; reflexivity.
  - lia.
  - intros k' [<-|[<-|[]]]; simpl; lia.
Defined.

Section EarlyReturnClaims.
Context {V : Type} `{EqComparable V}.

(** C5 -- Degenerate range.  For every map and every call with
    [!(keyBegin < keyEnd)], [assign] leaves the map exactly as it was, so
    [valueAt] is unchanged at every key and [size] is unchanged; nothing is
    reported: the call goes through no fault and the checked call returns
    the same map. *)
Theorem assign_degenerate_noop (m : interval_map V) (keyBegin keyEnd : K) (val : V) :
  ~ keyBegin < keyEnd ->
  assign m keyBegin keyEnd val = m
  /\ (forall k, valueAt (assign m keyBegin keyEnd val) k = valueAt m k)
  /\ size (assign m keyBegin keyEnd val) = size m
  /\ assign_checked m keyBegin keyEnd val = Some m.
Proof.
  intros N.
  pose proof (assign_run_degenerate m keyBegin keyEnd val N) as R.
  pose proof (assign_degenerate m keyBegin keyEnd val N) as A.
  repeat split.
  - exact A.
  - intros k. now rewrite A.
  - now rewrite A.
  - unfold assign_checked. rewrite R. simpl. now rewrite A.
Qed.

(** C8 -- Trivial map.  For every call with [keyBegin < keyEnd] on a map
    whose store is empty: if the value equals the default value the map is
    left unchanged; otherwise the store afterwards holds exactly
    [(keyBegin, val)] and [(keyEnd, m_valBegin)], so its size is 2. *)
Theorem assign_on_empty (m : interval_map V) (keyBegin keyEnd : K) (val : V) :
  m_map m = [] -> keyBegin < keyEnd ->
  (val = m_valBegin m -> assign m keyBegin keyEnd val = m)
  /\ (val <> m_valBegin m ->
      m_map (assign m keyBegin keyEnd val)
        = [(keyBegin, val); (keyEnd, m_valBegin m)]
      /\ size (assign m keyBegin keyEnd val) = 2%nat).
Proof.
  intros E L. unfold size, assign, assign_run. rewrite E. simpl.
  replace (keyBegin <? keyEnd) with true by (symmetry; apply Z.ltb_lt; lia).
  simpl. split.
  - intros ->. rewrite veqb_refl. simpl. rewrite <- E. apply interval_map_eta.
  - intros N. apply veqb_neq in N. rewrite N. simpl. now split.
Qed.
End EarlyReturnClaims.

Lemma assign_degenerate_noop_witness :
  assign Scenarios.one_interval 5 5 "C"%char = Scenarios.one_interval.
Proof.
  apply (assign_degenerate_noop Scenarios.one_interval 5 5 "C"%char). lia.
Defined.

Lemma assign_on_empty_witness :
  m_map (assign Scenarios.fresh 1 3 "B"%char) = [(1, "B"%char); (3, "A"%char)].
Proof.
  apply (proj2 (assign_on_empty Scenarios.fresh 1 3 "B"%char eq_refl ltac:(lia))).
  discriminate.
Defined.

Section CollapseClaim.
Context {V : Type} `{EqComparable V}.

(** C6 -- Collapse to empty.  For every map and every call
    [assign(keyBegin, keyEnd, m_valBegin)] with [keyBegin < keyEnd] whose
    range covers the span of the stored boundaries ([keyBegin] at or below
    the first stored key, [keyEnd] above the last one), the store is empty
    after the call: [size] is 0. *)
Theorem assign_default_over_span (m : interval_map V) (keyBegin keyEnd : K) :
  well_formed (m_map m) -> keyBegin < keyEnd ->
  (forall k x, hd_error (m_map m) = Some (k, x) -> keyBegin <= k) ->
  (forall k x, rbegin (m_map m) = Some (k, x) -> k < keyEnd) ->
  size (assign m keyBegin keyEnd (m_valBegin m)) = 0%nat.
Proof.
  intros W Lt First Last.
  destruct (span_keys keyBegin keyEnd (m_map m) W First Last) as [G L].
  unfold size. now rewrite assign_run_default_span.
Qed.
End CollapseClaim.

Lemma assign_default_over_span_witness :
  size (assign Scenarios.one_interval 0 10 "A"%char) = 0%nat.
Proof.
  apply (assign_default_over_span Scenarios.one_interval 0 10).
  - exact well_formed_one_interval.
  - lia.
  - intros k x E. inversion E. lia.
  - intros k x E. inversion E. lia.
Defined.

(** C7, as stated for every map state, fails: on the map with the single
    boundary [4 -> 'B'] (default ['A']), a first [assign(0, 1, 'A')] leaves
    the boundary [4 -> 'A'] and a second one leaves the store empty. *)
Lemma assign_twice_differs :
  let m := Scenarios.open_ended in
  m_map (assign m 0 1 "A"%char) = [(4, "A"%char)]
  /\ m_map (assign (assign m 0 1 "A"%char) 0 1 "A"%char) = []
  /\ assign (assign m 0 1 "A"%char) 0 1 "A"%char <> assign m 0 1 "A"%char.
Proof. repeat split. discriminate. Qed.

Section IdempotenceClaim.
Context {V : Type} `{EqComparable V}.

(** C7 (amended) -- Idempotence.  For every map that is canonical and
    whose last entry, if any, holds the default value (every map built from
    a fresh one by [assign] calls is such a map), and for every
    [keyBegin], [keyEnd] and value, calling [assign] twice in succession
    yields exactly the same map, default value and store, as calling it
    once. *)
Theorem assign_idempotent (m : interval_map V) (keyBegin keyEnd : K) (val : V) :
  well_formed (m_map m) -> is_canonical m = true -> last_is_default m ->
  assign (assign m keyBegin keyEnd val) keyBegin keyEnd val
  = assign m keyBegin keyEnd val.
Proof. intros W C S. apply assign_twice. now repeat split. Qed.
End IdempotenceClaim.

Lemma assign_idempotent_witness :
  assign (assign Scenarios.one_interval 1 2 "C"%char) 1 2 "C"%char
  = assign Scenarios.one_interval 1 2 "C"%char.
Proof.
  apply (assign_idempotent Scenarios.one_interval 1 2 "C"%char).
  - exact well_formed_one_interval.
  - reflexivity.
  - reflexivity.
Defined.

(** * Further properties of the container *)

(** ** Lookup through the entries not above the key *)

Section LookupBelow.
Context {V : Type} `{EqComparable V}.
Implicit Types (s r A B L M R T : store V) (k key : K) (x p d : V).

Lemma floor_from_below (e : entry V) key r :
  snd (floor_from e key r) = last_val (snd e) (below (key + 1) r).
Proof.
  revert e. induction r as [|[k1 x1] r IH]; intros e; simpl; [reflexivity|].
  destruct (k1 <=? key) eqn:E.
  - replace (k1 <? key + 1) with true
      by (symmetry; apply Z.ltb_lt; apply Z.leb_le in E; lia).
    apply (IH (k1, x1)).
  - replace (k1 <? key + 1) with false
      by (symmetry; apply Z.ltb_ge; apply Z.leb_gt in E; lia).
    reflexivity.
Qed.

(** The value at [key] is the value of the last entry whose key is not above
    [key], the default value if there is none. *)
Lemma valueAt_below d s key :
  well_formed s ->
  valueAt {| m_valBegin := d; m_map := s |} key = last_val d (below (key + 1) s).
Proof.
  intros W. destruct s as [|[k0 x0] r]; [reflexivity|].
  rewrite (valueAt_cons {| m_valBegin := d; m_map := (k0, x0) :: r |}
             key (k0, x0) r eq_refl W). cbn [fst m_valBegin below].
  destruct (key <? k0) eqn:E.
  - now replace (k0 <? key + 1) with false
      by (symmetry; apply Z.ltb_ge; apply Z.ltb_lt in E; lia).
  - replace (k0 <? key + 1) with true
      by (symmetry; apply Z.ltb_lt; apply Z.ltb_ge in E; lia).
    apply (floor_from_below (k0, x0)).
Qed.

Lemma below_app_ge k L X : keys_ge k X -> below k (L ++ X) = below k L.
Proof.
  intros G. induction L as [|[k' x'] L IH]; simpl.
  - destruct X as [|[k1 x1] X]; [reflexivity|]. simpl.
    apply Forall_inv in G. simpl in G.
    now replace (k1 <? k) with false by (symmetry; apply Z.ltb_ge; lia).
  - destruct (k' <? k); [now rewrite IH|reflexivity].
Qed.

Lemma below_app_lt k L X : keys_lt k L -> below k (L ++ X) = L ++ below k X.
Proof.
  intros G. induction L as [|[k' x'] L IH]; simpl; [reflexivity|].
  inversion G; subst. simpl in *.
  replace (k' <? k) with true by (symmetry; apply Z.ltb_lt; lia).
  now rewrite IH.
Qed.

Lemma below_all k s : keys_lt k s -> below k s = s.
Proof.
  intros G. rewrite <- (app_nil_r s) at 1.
  rewrite below_app_lt by exact G. simpl. apply app_nil_r.
Qed.

Lemma below_none k s : keys_ge k s -> below k s = [].
Proof. intros G. now rewrite <- (app_nil_l s), below_app_ge. Qed.

Lemma keys_ge_of_tail k x r : well_formed ((k, x) :: r) -> keys_ge (k + 1) r.
Proof.
  intros W. apply Forall_forall. intros en I.
  pose proof (keys_gt_tail k x r en W I). lia.
Qed.

(** A stored boundary key holds its own value. *)
Lemma valueAt_entry d A k x B :
  well_formed (A ++ (k, x) :: B) ->
  valueAt {| m_valBegin := d; m_map := A ++ (k, x) :: B |} k = x.
Proof.
  intros W. rewrite valueAt_below by exact W.
  change (A ++ (k, x) :: B) with (A ++ [(k, x)] ++ B).
  rewrite app_assoc, below_app_lt, below_none.
  - now rewrite app_nil_r, last_val_app.
  - apply keys_ge_of_tail with (x := x).
    now apply well_formed_app_r in W.
  - apply keys_lt_app. split.
    + apply Forall_forall. intros en I.
      pose proof (well_formed_mid_fresh A k x B W en I).
      apply well_formed_app in W as (_ & _ & C).
      specialize (C en (k, x) I (or_introl eq_refl)). simpl in C. lia.
    + constructor; [simpl; lia|constructor].
Qed.
End LookupBelow.

(** ** What [assign] does to the values *)

Section Values.
Context {V : Type} `{EqComparable V}.
Implicit Types (s r A B T : store V) (k key : K) (x p : V).
Variables (valBegin : V) (keyBegin keyEnd : K) (val : V) (L M R : store V).
Hypothesis range : keyBegin < keyEnd.
Hypothesis wf : well_formed (L ++ M ++ R).
Hypothesis cutL : keys_lt keyBegin L.
Hypothesis cutM : keys_ge keyBegin M.
Hypothesis cutM' : keys_lt keyEnd M.
Hypothesis cutR : keys_ge keyEnd R.
Hypothesis chain : no_repeat valBegin (L ++ M ++ R) = true.
Hypothesis closed : last_val valBegin (L ++ M ++ R) = valBegin.

Let last_key := last_key_of keyEnd (L ++ M ++ R).
Let T' := closed_tail valBegin last_key keyEnd val M R.
Let after := {| m_valBegin := valBegin;
                m_map := settled valBegin keyBegin keyEnd val L M R |}.
Let before := {| m_valBegin := valBegin; m_map := L ++ M ++ R |}.

Lemma settled_value_inside key :
  keyBegin <= key < keyEnd -> valueAt after key = val.
Proof.
  intros B. unfold after. rewrite valueAt_below by now apply settled_wf.
  unfold settled. rewrite app_assoc, below_app.
  - apply last_val_settled.
  - apply keys_lt_app. split.
    + eapply keys_lt_weaken; [|exact cutL]. lia.
    + eapply keys_lt_weaken; [|apply (settled_mid_keys _ _ (keyBegin + 1)); lia]. lia.
  - eapply keys_ge_weaken; [|eapply closed_tail_keys; eassumption]. lia.
Qed.

Lemma settled_value_before key :
  key < keyBegin -> valueAt after key = valueAt before key.
Proof.
  intros B. unfold after, before.
  rewrite !valueAt_below by (exact wf || now apply settled_wf).
  unfold settled. rewrite !below_app_ge; [reflexivity| |].
  - apply keys_ge_app. split.
    + eapply keys_ge_weaken; [|exact cutM]. lia.
    + eapply keys_ge_weaken; [|exact cutR]. lia.
  - apply keys_ge_app. split.
    + eapply keys_ge_weaken; [|apply (settled_mid_keys _ _ keyEnd); exact range]. lia.
    + eapply keys_ge_weaken; [|eapply closed_tail_keys; eassumption]. lia.
Qed.

Lemma last_key_of_short : R = [] -> last_key = keyEnd.
Proof.
  intros ER. unfold last_key, last_key_of.
  destruct (rbegin (L ++ M ++ R)) as [[k x]|] eqn:E; [|reflexivity].
  assert (k < keyEnd) as Lt.
  { assert (In (k, x) (L ++ M ++ R)) as I.
    { destruct (exists_last (l := L ++ M ++ R)) as (a & e & Ea).
      - intros N. rewrite N in E. discriminate.
      - rewrite Ea in *. rewrite rbegin_app_last in E. inversion E; subst.
        apply in_or_app. right. now left. }
    rewrite ER, app_nil_r in I. apply in_app_or in I as [I|I].
    - unfold keys_lt in cutL. rewrite Forall_forall in cutL. apply cutL in I.
      simpl in I. lia.
    - unfold keys_lt in cutM'. rewrite Forall_forall in cutM'. now apply cutM' in I. }
  now replace (k <? keyEnd) with true by (symmetry; apply Z.ltb_lt; lia).
Qed.

Lemma settled_tail_value key :
  anchored valBegin keyEnd val L M R -> keyEnd <= key ->
  last_val val (below (key + 1) T')
  = last_val (last_val valBegin (L ++ M)) (below (key + 1) R).
Proof.
  intros A Ge. unfold anchored in A.
  assert (PM : M <> [] -> last_val valBegin (L ++ M) = last_val val M).
  { intros N. rewrite last_val_app. now apply last_val_nonempty. }
  pose proof last_key_of_short as LK.
  assert (wfR : well_formed R)
    by (eapply well_formed_app_r, well_formed_app_r; exact wf).
  assert (chainR : no_repeat (last_val valBegin (L ++ M)) R = true).
  { rewrite app_assoc, no_repeat_app in chain. now apply andb_prop in chain. }
  unfold T', closed_tail, forward_tail.
  destruct R as [|[k1 x1] R1] eqn:ER.
  - (* nothing stored from keyEnd on *)
    rewrite LK by reflexivity. cbn [empty andb below].
    rewrite app_nil_r in closed. rewrite closed.
    destruct (veqb val valBegin) eqn:E; cbn [negb below].
    + now apply veqb_spec in E.
    + cbn [below last_val fst].
      now replace (keyEnd <? key + 1) with true by (symmetry; apply Z.ltb_lt; lia).
  - assert (Gap : key < k1 -> last_val valBegin (L ++ M) = val
                              \/ carries keyEnd val M ((k1, x1) :: R1) = true).
    { intros Lt. unfold carries.
      replace (keyEnd <? k1) with true by (symmetry; apply Z.ltb_lt; lia).
      rewrite andb_true_r.
      destruct (veqb (last_val val M) val) eqn:E; [left|now right].
      apply veqb_spec in E.
      destruct A as [N|[N|[(x & R1' & N)|N]]].
      - now rewrite PM.
      - discriminate.
      - inversion N; subst. lia.
      - destruct M as [|e M']; [now rewrite app_nil_r|].
        rewrite PM by discriminate. exact E. }
    apply no_repeat_cons in chainR as [_ C1].
    assert (Below1 : key < k1 -> below (key + 1) R1 = []).
    { intros Lt. apply below_none.
      eapply keys_ge_weaken; [|apply (keys_ge_of_tail k1 x1); exact wfR]. lia. }
    destruct (carries keyEnd val M ((k1, x1) :: R1)) eqn:Ec.
    + cbn [empty andb].
      unfold carries in Ec. apply andb_prop in Ec as [Ex Ek].
      apply negb_true_iff in Ex.
      assert (M <> []) as NM.
      { intros ->. simpl in Ex. now rewrite veqb_refl in Ex. }
      rewrite PM by exact NM.
      cbn [below fst].
      now replace (keyEnd <? key + 1) with true by (symmetry; apply Z.ltb_lt; lia).
    + destruct (veqb x1 val) eqn:Ex.
      * apply veqb_spec in Ex. subst x1.
        assert ((if empty R1 && negb (veqb val valBegin)
                 then [(last_key, valBegin)] else R1) = R1) as ->.
        { destruct R1; [|reflexivity]. cbn [empty andb].
          rewrite app_assoc, last_val_app in closed. simpl in closed.
          subst. now rewrite veqb_refl. }
        cbn [below fst]. destruct (k1 <? key + 1) eqn:E1; [reflexivity|].
        apply Z.ltb_ge in E1. rewrite Below1 by lia. cbn [last_val].
        destruct (Gap ltac:(lia)) as [G|G]; [now rewrite G|discriminate].
      * cbn [empty andb below fst].
        destruct (k1 <? key + 1) eqn:E1; [reflexivity|].
        apply Z.ltb_ge in E1. cbn [last_val].
        destruct (Gap ltac:(lia)) as [G|G]; [now rewrite G|discriminate].
Qed.

Lemma settled_value_after key :
  anchored valBegin keyEnd val L M R -> keyEnd <= key ->
  valueAt after key = valueAt before key.
Proof.
  intros A Ge. unfold after, before.
  rewrite !valueAt_below by (exact wf || now apply settled_wf).
  rewrite (app_assoc L M R). unfold settled.
  rewrite (app_assoc L (settled_mid valBegin keyBegin val L)), !below_app_lt.
  - rewrite (last_val_app valBegin (L ++ settled_mid valBegin keyBegin val L)),
      (last_val_app valBegin (L ++ M)), last_val_settled.
    now apply settled_tail_value.
  - apply keys_lt_app. split.
    + eapply keys_lt_weaken; [|exact cutL]. lia.
    + eapply keys_lt_weaken; [|exact cutM']. lia.
  - apply keys_lt_app. split.
    + eapply keys_lt_weaken; [|exact cutL]. lia.
    + eapply keys_lt_weaken; [|apply (settled_mid_keys _ _ keyEnd); exact range]. lia.
Qed.
End Values.

(** ** Faults and size of the general case *)

Section Outcome.
Context {V : Type} `{EqComparable V}.
Implicit Types (s r A B T : store V) (k key : K) (x p : V).
Variables (valBegin : V) (keyBegin keyEnd : K) (val : V) (L M R : store V).
Hypothesis range : keyBegin < keyEnd.
Hypothesis wf : well_formed (L ++ M ++ R).
Hypothesis cutL : keys_lt keyBegin L.
Hypothesis cutM : keys_ge keyBegin M.
Hypothesis cutM' : keys_lt keyEnd M.
Hypothesis cutR : keys_ge keyEnd R.
Hypothesis chain : no_repeat valBegin (L ++ M ++ R) = true.
Hypothesis closed : last_val valBegin (L ++ M ++ R) = valBegin.

Lemma assign_run_cut_faults :
  L ++ M ++ R <> [] ->
  faults (assign_run {| m_valBegin := valBegin; m_map := L ++ M ++ R |}
            keyBegin keyEnd val)
  = if empty (cleared_tail keyEnd val M R) then [DerefEnd] else [].
Proof.
  intros N. unfold assign_run. cbn [m_valBegin m_map].
  replace (keyBegin <? keyEnd) with true by (symmetry; apply Z.ltb_lt; lia).
  cbn [negb].
  destruct (empty (L ++ M ++ R)) eqn:Em.
  { destruct (L ++ M ++ R); [contradiction|discriminate]. }
  rewrite (delete_overlapping_cut keyBegin keyEnd val L M R range wf
             cutL cutM cutM' cutR valBegin chain).
  rewrite insert_interval_cut;
    [reflexivity|exact cutL|apply keep_head_cases|].
  eapply cleared_tail_wf; eassumption.
Qed.

Lemma entry_past_app a b :
  entry_past keyEnd val (a ++ b)
  = entry_past keyEnd val a || entry_past keyEnd val b.
Proof. apply existsb_app. Qed.

Lemma entry_past_lt a : keys_lt keyEnd a -> entry_past keyEnd val a = false.
Proof.
  intros G. unfold entry_past. apply not_true_is_false. intros E.
  apply existsb_exists in E as (en & I & E).
  unfold keys_lt in G. rewrite Forall_forall in G. apply G in I.
  apply orb_prop in E as [E|E].
  - apply Z.ltb_lt in E. lia.
  - apply andb_prop in E as [E _]. apply Z.eqb_eq in E. lia.
Qed.

Lemma cleared_tail_empty :
  empty (cleared_tail keyEnd val M R)
  = negb (entry_past keyEnd val (L ++ M ++ R)).
Proof.
  rewrite !entry_past_app, (entry_past_lt M cutM').
  rewrite (entry_past_lt L) by (eapply keys_lt_weaken; [|exact cutL]; lia).
  cbn [orb].
  assert (wfR : well_formed R)
    by (eapply well_formed_app_r, well_formed_app_r; exact wf).
  unfold cleared_tail, rest_after, carries.
  destruct R as [|[k1 x1] R1]; [reflexivity|].
  apply Forall_inv in cutR. cbn [fst] in cutR.
  cbn [hit_end entry_past existsb fst snd].
  destruct (keyEnd <? k1) eqn:Ek; cbn [negb andb orb].
  - now destruct (negb (veqb (last_val val M) val)).
  - rewrite andb_false_r. cbn [app].
    apply Z.ltb_ge in Ek.
    replace (k1 =? keyEnd) with true by (symmetry; apply Z.eqb_eq; lia).
    cbn [andb]. destruct (veqb x1 val); cbn [negb orb tl]; [|reflexivity].
    destruct R1 as [|[k2 x2] R2]; [reflexivity|]. cbn [empty existsb fst].
    pose proof (keys_gt_tail k1 x1 _ (k2, x2) wfR (or_introl eq_refl)) as G.
    cbn [fst] in G.
    now replace (keyEnd <? k2) with true by (symmetry; apply Z.ltb_lt; lia).
Qed.

Lemma forward_tail_length :
  (length (forward_tail keyEnd val M R) <= S (length R))%nat.
Proof.
  unfold forward_tail. destruct R as [|[k1 x1] R1]; [simpl; lia|].
  destruct (carries keyEnd val M ((k1, x1) :: R1)); [simpl; lia|].
  destruct (veqb x1 val); simpl; lia.
Qed.

Lemma closed_tail_length last_key :
  (length (closed_tail valBegin last_key keyEnd val M R) <= S (length R))%nat.
Proof.
  unfold closed_tail. pose proof forward_tail_length as F.
  destruct (forward_tail keyEnd val M R); cbn [empty andb].
  - destruct (negb (veqb val valBegin)); simpl; lia.
  - exact F.
Qed.

Lemma settled_length :
  (length (settled valBegin keyBegin keyEnd val L M R)
   <= length (L ++ M ++ R) + 2)%nat.
Proof.
  unfold settled. rewrite !length_app.
  pose proof (closed_tail_length (last_key_of keyEnd (L ++ M ++ R))) as C.
  assert (length (settled_mid valBegin keyBegin val L) <= 1)%nat.
  { unfold settled_mid. destruct (veqb (last_val valBegin L) val); simpl; lia. }
  lia.
Qed.

(** The range already holds [val]: the store has no key inside it and the
    value before [keyBegin] is [val], or its only key inside is [keyBegin],
    with [val]. *)
Lemma settled_same :
  (forall key, keyBegin <= key < keyEnd ->
     valueAt {| m_valBegin := valBegin; m_map := L ++ M ++ R |} key = val) ->
  settled valBegin keyBegin keyEnd val L M R = L ++ M ++ R.
Proof.
  intros Same.
  assert (chainM : no_repeat (last_val valBegin L) (M ++ R) = true).
  { rewrite no_repeat_app in chain. now apply andb_prop in chain. }
  assert (AtBegin : M = [] \/ (exists k x M', M = (k, x) :: M' /\ keyBegin < k) ->
                    last_val valBegin L = val).
  { intros Far. rewrite <- (Same keyBegin) by lia.
    rewrite valueAt_below by exact wf. rewrite below_app. 1: reflexivity.
    - eapply keys_lt_weaken; [|exact cutL]. lia.
    - apply keys_ge_app. split.
      + destruct Far as [->|(k & x & M' & -> & Lt)]; [constructor|].
        assert (well_formed ((k, x) :: M')) as WM
          by (eapply well_formed_app_l, well_formed_app_r; exact wf).
        constructor; [simpl; lia|].
        eapply keys_ge_weaken; [|apply (keys_ge_of_tail k x); exact WM]. lia.
      + eapply keys_ge_weaken; [|exact cutR]. lia. }
  assert (Tail : forall M0, last_val val M0 = val ->
            no_repeat val R = true ->
            (R = [] -> val = valBegin) ->
            closed_tail valBegin (last_key_of keyEnd (L ++ M ++ R)) keyEnd val M0 R = R).
  { intros M0 LM C E. unfold closed_tail, forward_tail, carries.
    destruct R as [|[k1 x1] R1].
    - cbn [empty andb]. rewrite (E eq_refl). now rewrite veqb_refl.
    - rewrite LM, veqb_refl. cbn [negb andb].
      apply no_repeat_cons in C as [N _]. apply veqb_neq in N. now rewrite N. }
  unfold settled, settled_mid.
  destruct M as [|[k0 x0] M'] eqn:EM.
  - (* no key inside the range *)
    rewrite (AtBegin (or_introl eq_refl)), veqb_refl. cbn [app].
    f_equal. apply Tail; [reflexivity| |].
    + cbn [app] in chainM. now rewrite (AtBegin (or_introl eq_refl)) in chainM.
    + intros ->. cbn [app] in closed. rewrite app_nil_r in closed.
      now rewrite <- (AtBegin (or_introl eq_refl)).
  - assert (x0 = val) as ->.
    { inversion cutM; inversion cutM'; subst. cbn [fst] in *.
      rewrite <- (Same k0) by lia. symmetry.
      apply (valueAt_entry valBegin L k0 x0 (M' ++ R)). exact wf. }
    cbn [app] in chainM. apply no_repeat_cons in chainM as [NL CM].
    assert (k0 = keyBegin) as ->.
    { inversion cutM; subst. cbn [fst] in *.
      destruct (Z.eq_dec k0 keyBegin) as [E|D]; [exact E|].
      exfalso. apply NL. symmetry. apply AtBegin. right.
      exists k0, val, M'. split; [reflexivity|lia]. }
    assert (M' = []) as ->.
    { destruct M' as [|[k2 x2] M'']; [reflexivity|]. exfalso.
      cbn [app] in CM. apply no_repeat_cons in CM as [N _]. apply N.
      inversion cutM as [|? ? _ G2]; inversion cutM' as [|? ? _ L2]; subst.
      apply Forall_inv in G2, L2. cbn [fst] in *.
      rewrite <- (Same k2) by lia. symmetry.
      pose proof (valueAt_entry valBegin (L ++ [(keyBegin, val)]) k2 x2
                    (M'' ++ R)) as VE.
      rewrite <- app_assoc in VE. apply VE. exact wf. }
    assert (veqb (last_val valBegin L) val = false) as ->.
    { apply veqb_neq. congruence. }
    cbn [app]. do 2 f_equal. apply Tail; [reflexivity|exact CM|].
    intros ->. cbn [app] in closed. rewrite last_val_app in closed. exact closed.
Qed.
End Outcome.

(** ** Helpers for the whole container *)

Section Container.
Context {V : Type} `{EqComparable V}.
Implicit Types (s : store V) (m : interval_map V) (k : K) (x p q : V).

Lemma assign_m_valBegin m keyBegin keyEnd val :
  m_valBegin (assign m keyBegin keyEnd val) = m_valBegin m.
Proof.
  unfold assign, assign_run.
  destruct (negb (keyBegin <? keyEnd)); [reflexivity|].
  destruct (empty (m_map m)).
  - now destruct (negb (veqb val (m_valBegin m))).
  - destruct (delete_overlapping keyBegin keyEnd val (m_map m)) as [s2 fs2].
    now destruct (insert_interval keyBegin val s2) as [s5 fs5].
Qed.

Lemma assign_all_m_valBegin m cs :
  m_valBegin (assign_all m cs) = m_valBegin m.
Proof.
  revert m. induction cs as [|[[b e] v] cs IH]; intros m; [reflexivity|].
  cbn [assign_all fold_left]. fold (assign_all (assign_call m (b, e, v)) cs).
  rewrite IH. apply assign_m_valBegin.
Qed.

Lemma assign_all_valid m cs : valid m -> valid (assign_all m cs).
Proof.
  revert m. induction cs as [|[[b e] v] cs IH]; intros m Vm; [exact Vm|].
  cbn [assign_all fold_left]. fold (assign_all (assign_call m (b, e, v)) cs).
  apply IH. now apply assign_valid.
Qed.

(** A valid map cut at the bounds of a call, with the map the call leaves. *)
Lemma assign_cut d s keyBegin keyEnd val :
  valid {| m_valBegin := d; m_map := s |} -> keyBegin < keyEnd ->
  exists L M R,
    s = L ++ M ++ R
    /\ well_formed (L ++ M ++ R)
    /\ keys_lt keyBegin L /\ keys_ge keyBegin M
    /\ keys_lt keyEnd M /\ keys_ge keyEnd R
    /\ no_repeat d (L ++ M ++ R) = true
    /\ last_val d (L ++ M ++ R) = d
    /\ assign {| m_valBegin := d; m_map := s |} keyBegin keyEnd val
       = {| m_valBegin := d; m_map := settled d keyBegin keyEnd val L M R |}.
Proof.
  intros Vm Lt. pose proof (assign_settled _ keyBegin keyEnd val Vm Lt) as A.
  destruct Vm as (W & C & S). cbn [m_valBegin m_map] in *.
  rewrite is_canonical_no_repeat in C. unfold last_is_default in S.
  cbn [m_valBegin m_map] in *.
  destruct (cut_store keyBegin keyEnd s W) as (E & HL & HM & HM' & HR).
  exists (below keyBegin s), (below keyEnd (lower_bound keyBegin s)),
    (lower_bound keyEnd (lower_bound keyBegin s)).
  rewrite <- E. repeat split; auto.
Qed.

Lemma assign_value_below_end m keyBegin keyEnd val key :
  valid m -> keyBegin < keyEnd -> key < keyEnd ->
  valueAt (assign m keyBegin keyEnd val) key
  = if keyBegin <=? key then val else valueAt m key.
Proof.
  intros Vm Lt Lk. destruct m as [d s].
  destruct (assign_cut d s keyBegin keyEnd val Vm Lt) as
    (L & M & R & -> & W' & HL & HM & HM' & HR & C' & S' & ->).
  destruct (keyBegin <=? key) eqn:E.
  - apply Z.leb_le in E. eapply settled_value_inside; eauto.
  - apply Z.leb_gt in E. eapply settled_value_before; eauto.
Qed.

Lemma valueAt_in m k x :
  well_formed (m_map m) -> In (k, x) (m_map m) -> valueAt m k = x.
Proof.
  intros W I. destruct m as [d s]. cbn [m_map] in *.
  apply in_split in I as (A & B & ->). now apply valueAt_entry.
Qed.

Lemma no_repeat_spec p s :
  no_repeat p s = true <->
  (forall k x r, s = (k, x) :: r -> x <> p)
  /\ (forall a k1 x1 k2 x2 b, s = a ++ (k1, x1) :: (k2, x2) :: b -> x1 <> x2).
Proof.
  revert p. induction s as [|[k x] r IH]; intros p.
  - split; [intros _|reflexivity]. split.
    + discriminate.
    + intros a k1 x1 k2 x2 b E. destruct a; discriminate.
  - rewrite no_repeat_cons, IH. split.
    + intros (N & Hd & Adj). split.
      * intros k' x' r' E. now inversion E; subst.
      * intros a k1 x1 k2 x2 b E. destruct a as [|e a].
        -- inversion E; subst. intros ->. now apply (Hd k2 x2 b).
        -- inversion E; subst. now apply (Adj a k1 x1 k2 x2 b).
    + intros (Hd & Adj). split; [now apply (Hd k x r)|]. split.
      * intros k2 x2 b E. subst r. intros ->.
        now apply (Adj [] k x k2 x b).
      * intros a k1 x1 k2 x2 b E. subst r.
        now apply (Adj ((k, x) :: a) k1 x1 k2 x2 b).
Qed.

(** The call that covers the whole span of the stored keys. *)
Lemma assign_run_over_span m keyBegin keyEnd val :
  well_formed (m_map m) -> keyBegin < keyEnd ->
  keys_ge keyBegin (m_map m) -> keys_lt keyEnd (m_map m) ->
  val <> m_valBegin m ->
  m_map (assign m keyBegin keyEnd val)
  = [(keyBegin, val); (keyEnd, m_valBegin m)].
Proof.
  intros W Lt G L N. apply veqb_neq in N.
  destruct m as [d s]. cbn [m_valBegin m_map] in *.
  unfold assign, assign_run. cbn [m_valBegin m_map].
  replace (keyBegin <? keyEnd) with true by (symmetry; apply Z.ltb_lt; lia).
  cbn [negb]. destruct (empty s) eqn:Em.
  - rewrite N. destruct s; [|discriminate]. cbn.
    now replace (keyBegin <? keyEnd) with true by (symmetry; apply Z.ltb_lt; lia).
  - assert (last_key_of keyEnd s = keyEnd) as LK.
    { unfold last_key_of. destruct (rbegin s) as [[kl xl]|] eqn:E; [|reflexivity].
      assert (In (kl, xl) s) as I.
      { destruct (exists_last (l := s)) as (a & e & Ea).
        - intros ->. discriminate.
        - rewrite Ea in *. rewrite rbegin_app_last in E. inversion E; subst.
          apply in_or_app. right. now left. }
      unfold keys_lt in L. rewrite Forall_forall in L. apply L in I. cbn in I.
      now replace (kl <? keyEnd) with true by (symmetry; apply Z.ltb_lt; lia). }
    fold (last_key_of keyEnd s). rewrite LK.
    unfold delete_overlapping.
    assert (lower_bound keyBegin s = s) as ->.
    { apply (lower_bound_app keyBegin [] s); [constructor|exact G]. }
    destruct (scan_inside keyBegin keyEnd val s
                {| resized := None; will_delete := [] |} G L) as (Rz & _ & Wd).
    cbn zeta in *. cbn [resized] in Rz. rewrite Rz. clear Rz.
    set (ks := will_delete (scan keyBegin keyEnd val s
                              {| resized := None; will_delete := [] |})) in *.
    pose proof (erase_all_well_formed ks s [] W) as W2.
    pose proof (fun en => erase_all_in ks s [] en W) as I2.
    destruct (erase_all ks s []) as [s2 fs2]. cbn [fst] in *.
    cbv beta iota zeta.
    assert (s2 = [] \/ exists x, s2 = [(keyBegin, x)]) as Shape.
    { apply single_key_store; [exact W2|]. intros en I.
      destruct (I2 en I) as [Is N'].
      destruct (Z.eq_dec (fst en) keyBegin) as [E|D]; [exact E|].
      exfalso. apply N'. now apply Wd. }
    assert (insert_interval keyBegin val s2 = ([(keyBegin, val)], [DerefEnd])) as ->.
    { unfold insert_interval.
      assert (insert_or_assign keyBegin val s2 = [(keyBegin, val)]) as ->.
      { destruct Shape as [->|[x ->]]; cbn; [reflexivity|].
        now rewrite Z.ltb_irrefl. }
      unfold next. cbn. rewrite Z.ltb_irrefl. cbn. now rewrite Z.eqb_refl. }
    cbn. rewrite N. cbn. unfold canonize_tail, bound_tail. cbn. rewrite !N. cbn.
    replace (keyEnd <? keyBegin) with false by (symmetry; apply Z.ltb_ge; lia).
    replace (keyBegin <? keyEnd) with true by (symmetry; apply Z.ltb_lt; lia).
    now rewrite ?N.
Qed.
End Container.

(** ** A range strictly inside one stored interval *)

Section Inside.
Context {V : Type} `{EqComparable V}.
Implicit Types (s : store V) (m : interval_map V) (k : K) (x p q : V).

Lemma settled_inside_interval d keyBegin keyEnd val L k1 x1 R1 :
  keyBegin < keyEnd -> keyEnd < k1 ->
  well_formed (L ++ (k1, x1) :: R1) -> keys_lt keyBegin L ->
  last_val d (L ++ (k1, x1) :: R1) = d ->
  let after := {| m_valBegin := d;
                  m_map := settled d keyBegin keyEnd val L [] ((k1, x1) :: R1) |} in
  let before := {| m_valBegin := d; m_map := L ++ (k1, x1) :: R1 |} in
  well_formed (m_map after) ->
  valueAt after keyEnd = val
  /\ valueAt before keyEnd = last_val d L
  /\ valueAt before keyBegin = last_val d L.
Proof.
  intros Lt Lk W HL S after before Wa.
  assert (WR : well_formed ((k1, x1) :: R1)) by now apply well_formed_app_r in W.
  assert (GR : forall k, k <= k1 -> keys_ge k ((k1, x1) :: R1)).
  { intros k Le. constructor; [simpl; lia|].
    eapply keys_ge_weaken; [|apply (keys_ge_of_tail k1 x1); exact WR]. lia. }
  repeat split.
  - unfold after in *. cbn [m_map] in Wa. rewrite valueAt_below by exact Wa.
    unfold settled, closed_tail, forward_tail, carries.
    cbn [last_val]. rewrite veqb_refl. cbn [negb andb].
    rewrite app_assoc, below_app.
    + apply last_val_settled.
    + apply keys_lt_app. split.
      * eapply keys_lt_weaken; [|exact HL]. lia.
      * eapply keys_lt_weaken;
          [|apply (settled_mid_keys _ _ (keyBegin + 1)); lia]. lia.
    + destruct (veqb x1 val) eqn:Ex.
      * destruct R1 as [|e R2].
        -- cbn [empty andb]. rewrite last_val_app in S. cbn in S.
           apply veqb_spec in Ex. subst. rewrite veqb_refl. constructor.
        -- cbn [empty andb].
           eapply keys_ge_weaken; [|apply (keys_ge_of_tail k1 x1); exact WR]. lia.
      * cbn [empty andb]. apply GR. lia.
  - unfold before. rewrite valueAt_below by exact W. rewrite below_app.
    + reflexivity.
    + eapply keys_lt_weaken; [|exact HL]. lia.
    + apply GR. lia.
  - unfold before. rewrite valueAt_below by exact W. rewrite below_app.
    + reflexivity.
    + eapply keys_lt_weaken; [|exact HL]. lia.
    + apply GR. lia.
Qed.

Lemma assign_inside_interval m keyBegin keyEnd val :
  valid m -> keyBegin < keyEnd ->
  (forall en, In en (m_map m) -> ~ keyBegin <= fst en <= keyEnd) ->
  (exists en, In en (m_map m) /\ keyEnd < fst en) ->
  valueAt (assign m keyBegin keyEnd val) keyEnd = val
  /\ valueAt m keyEnd = valueAt m keyBegin.
Proof.
  intros Vm Lt None Some. destruct m as [d s].
  destruct (assign_cut d s keyBegin keyEnd val Vm Lt) as
    (L & M & R & -> & W' & HL & HM & HM' & HR & C' & S' & ->).
  cbn [m_map] in *.
  assert (M = []) as ->.
  { destruct M as [|e M']; [reflexivity|]. exfalso.
    apply (None e); [apply in_or_app; right; now left|].
    apply Forall_inv in HM, HM'. lia. }
  cbn [app] in *.
  destruct R as [|[k1 x1] R1].
  { exfalso. destruct Some as (en & I & G). rewrite app_nil_r in I.
    unfold keys_lt in HL. rewrite Forall_forall in HL. apply HL in I. lia. }
  assert (keyEnd < k1) as Lk.
  { pose proof (None (k1, x1) ltac:(apply in_or_app; right; now left)) as N.
    apply Forall_inv in HR. cbn [fst] in *. lia. }
  destruct (settled_inside_interval d keyBegin keyEnd val L k1 x1 R1
              Lt Lk W' HL S') as (A & B & C).
  - cbn [m_map]. now apply (settled_wf d keyBegin keyEnd val L [] ((k1, x1) :: R1)).
  - split; [exact A|congruence].
Qed.
End Inside.

(** * Further properties, stated for the user of the container *)

Section Extras.
Context {V : Type} `{EqComparable V}.
Implicit Types (m : interval_map V) (k key : K) (x : V).

(** X1 -- [assign] never touches [m_valBegin]: after any sequence of calls
    [get_valBegin] still returns the value the map had before them (for a
    fresh map, the value given to the constructor). *)
Theorem default_value_is_kept m (cs : list call) :
  get_valBegin (assign_all m cs) = get_valBegin m.
Proof. apply assign_all_m_valBegin. Qed.

(** X2 -- [is_canonical] accepts exactly the maps whose first entry, if
    any, holds another value than [m_valBegin] and in which no two
    consecutive entries hold the same value. *)
Theorem is_canonical_spec m :
  is_canonical m = true <->
  (forall k x r, m_map m = (k, x) :: r -> x <> m_valBegin m)
  /\ (forall a k1 x1 k2 x2 b,
        m_map m = a ++ (k1, x1) :: (k2, x2) :: b -> x1 <> x2).
Proof. rewrite is_canonical_no_repeat. apply no_repeat_spec. Qed.

(** X3 -- Below [keyEnd] the call is right.  On a map that is canonical and
    whose last entry holds the default value, after
    [assign(keyBegin, keyEnd, val)] with [keyBegin < keyEnd] every key in
    [[keyBegin, keyEnd)] holds [val] and every key below [keyBegin] holds
    the value it held before. *)
Theorem assign_values_below_keyEnd m keyBegin keyEnd val key :
  well_formed (m_map m) -> is_canonical m = true -> last_is_default m ->
  keyBegin < keyEnd -> key < keyEnd ->
  valueAt (assign m keyBegin keyEnd val) key
  = if keyBegin <=? key then val else valueAt m key.
Proof. intros W C S. apply assign_value_below_end. now repeat split. Qed.

(** X4 -- The call is right at every key when it is anchored.  On a map
    that is canonical and whose last entry holds the default value, if some
    stored key lies in [[keyBegin, keyEnd]], or every stored key is below
    [keyEnd], or the map already holds [val] at [keyBegin], then after
    [assign(keyBegin, keyEnd, val)] with [keyBegin < keyEnd] every key in
    [[keyBegin, keyEnd)] holds [val] and every other key holds the value it
    held before. *)
Theorem assign_pointwise_anchored m keyBegin keyEnd val :
  well_formed (m_map m) -> is_canonical m = true -> last_is_default m ->
  keyBegin < keyEnd ->
  (exists en, In en (m_map m) /\ keyBegin <= fst en <= keyEnd)
  \/ (forall en, In en (m_map m) -> fst en < keyEnd)
  \/ valueAt m keyBegin = val ->
  forall key,
    valueAt (assign m keyBegin keyEnd val) key
    = if (keyBegin <=? key) && (key <? keyEnd) then val else valueAt m key.
Proof.
  intros W C S Lt Anchor key.
  assert (Vm : valid m) by now repeat split.
  destruct (key <? keyEnd) eqn:Ek.
  { apply Z.ltb_lt in Ek. rewrite andb_true_r.
    now apply assign_value_below_end. }
  apply Z.ltb_ge in Ek. rewrite andb_false_r.
  destruct m as [d s].
  destruct (assign_cut d s keyBegin keyEnd val Vm Lt) as
    (L & M & R & -> & W' & HL & HM & HM' & HR & C' & S' & ->).
  eapply settled_value_after; eauto.
  (* the cut is anchored *)
  unfold anchored. cbn [m_map m_valBegin] in Anchor.
  destruct Anchor as [(en & I & B)|[All|At]].
  - apply in_app_or in I as [I|I].
    + unfold keys_lt in HL. rewrite Forall_forall in HL. apply HL in I. lia.
    + apply in_app_or in I as [I|I].
      * left. intros ->. destruct I.
      * right. right. left.
        destruct R as [|[k1 x1] R1]; [destruct I|].
        assert (well_formed ((k1, x1) :: R1)) as WR
          by (eapply well_formed_app_r, well_formed_app_r; exact W').
        pose proof (well_formed_cons_fst (k1, x1) R1 (fst en) WR
                      (in_map fst _ _ I)) as Le.
        apply Forall_inv in HR. cbn [fst] in *.
        assert (k1 = keyEnd) as -> by lia. eauto.
  - right. left. destruct R as [|e R1]; [reflexivity|].
    specialize (All e ltac:(apply in_or_app; right; apply in_or_app; right; now left)).
    apply Forall_inv in HR. lia.
  - destruct M as [|e M']; [|left; discriminate].
    right. right. right. rewrite <- At.
    rewrite valueAt_below by exact W'. cbn [app]. rewrite below_app.
    + reflexivity.
    + eapply keys_lt_weaken; [|exact HL]. lia.
    + eapply keys_ge_weaken; [|exact HR]. lia.
Qed.

(** X5 -- When [assign] leaves defined behaviour.  On a non-empty map that
    is canonical and whose last entry holds the default value, a call with
    [keyBegin < keyEnd] goes through no fault when some stored key is above
    [keyEnd] or a stored entry at [keyEnd] holds another value than [val];
    otherwise its one and only fault is the read of [what_after->second] at
    [m_map.end()].  No node is ever erased twice. *)
Theorem assign_faults m keyBegin keyEnd val :
  well_formed (m_map m) -> is_canonical m = true -> last_is_default m ->
  keyBegin < keyEnd -> m_map m <> [] ->
  faults (assign_run m keyBegin keyEnd val)
  = if entry_past keyEnd val (m_map m) then [] else [DerefEnd].
Proof.
  intros W C S Lt Ne.
  assert (Vm : valid m) by now repeat split.
  destruct m as [d s].
  destruct (assign_cut d s keyBegin keyEnd val Vm Lt) as
    (L & M & R & -> & W' & HL & HM & HM' & HR & C' & S' & _).
  cbn [m_map m_valBegin] in *.
  rewrite assign_run_cut_faults by auto.
  rewrite cleared_tail_empty with (L := L) (keyBegin := keyBegin) (valBegin := d)
    by auto.
  now destruct (entry_past keyEnd val (L ++ M ++ R)).
Qed.

(** X6 -- One call adds at most two entries: on a map that is canonical and
    whose last entry holds the default value, [size] after [assign] is at
    most [size] before plus 2. *)
Theorem assign_size_growth m keyBegin keyEnd val :
  well_formed (m_map m) -> is_canonical m = true -> last_is_default m ->
  (size (assign m keyBegin keyEnd val) <= size m + 2)%nat.
Proof.
  intros W C S. assert (Vm : valid m) by now repeat split.
  destruct (Z.lt_ge_cases keyBegin keyEnd) as [Lt|Ge].
  - destruct m as [d s].
    destruct (assign_cut d s keyBegin keyEnd val Vm Lt) as
      (L & M & R & -> & W' & HL & HM & HM' & HR & C' & S' & ->).
    unfold size, map_size. cbn [m_map]. apply settled_length; assumption.
  - rewrite assign_degenerate by lia. lia.
Qed.

(** X7 -- Outside the stored span a map built by [assign] holds the default
    value: after any sequence of calls on a fresh map, a key below every
    stored key, or at or above every stored key, holds the value given to
    the constructor. *)
Theorem default_outside_span (val : V) (cs : list call) key :
  (forall en, In en (m_map (assign_all (make val) cs)) -> key < fst en)
  \/ (forall en, In en (m_map (assign_all (make val) cs)) -> fst en <= key) ->
  valueAt (assign_all (make val) cs) key = val.
Proof.
  intros Out.
  pose proof (assign_all_valid (make val) cs (valid_make val)) as (W & _ & S).
  pose proof (assign_all_m_valBegin (make val) cs) as D. cbn in D.
  unfold last_is_default in S. rewrite D in S.
  destruct (assign_all (make val) cs) as [d s]. cbn [m_map m_valBegin] in *.
  subst d. rewrite valueAt_below by exact W.
  destruct Out as [Lo|Hi].
  - rewrite below_none; [reflexivity|].
    apply Forall_forall. intros en I. apply Lo in I. lia.
  - rewrite below_all; [exact S|].
    apply Forall_forall. intros en I. apply Hi in I. lia.
Qed.

(** X8 -- Assigning what is already there changes nothing: on a map that is
    canonical and whose last entry holds the default value, if every key in
    [[keyBegin, keyEnd)] already holds [val], then
    [assign(keyBegin, keyEnd, val)] leaves the map, store included, exactly
    as it was. *)
Theorem assign_same_value_noop m keyBegin keyEnd val :
  well_formed (m_map m) -> is_canonical m = true -> last_is_default m ->
  keyBegin < keyEnd ->
  (forall key, keyBegin <= key < keyEnd -> valueAt m key = val) ->
  assign m keyBegin keyEnd val = m.
Proof.
  intros W C S Lt Same. assert (Vm : valid m) by now repeat split.
  destruct m as [d s].
  destruct (assign_cut d s keyBegin keyEnd val Vm Lt) as
    (L & M & R & -> & W' & HL & HM & HM' & HR & C' & S' & ->).
  f_equal. eapply settled_same; eauto.
Qed.

(** X9 -- Overwriting everything: for every map and every call
    [assign(keyBegin, keyEnd, val)] with [keyBegin < keyEnd], [val] other
    than the default value, [keyBegin] at or below the first stored key and
    [keyEnd] above the last one, the store afterwards holds exactly
    [(keyBegin, val)] and [(keyEnd, m_valBegin)]. *)
Theorem assign_over_span m keyBegin keyEnd val :
  well_formed (m_map m) -> keyBegin < keyEnd ->
  (forall k x, hd_error (m_map m) = Some (k, x) -> keyBegin <= k) ->
  (forall k x, rbegin (m_map m) = Some (k, x) -> k < keyEnd) ->
  val <> m_valBegin m ->
  m_map (assign m keyBegin keyEnd val)
  = [(keyBegin, val); (keyEnd, m_valBegin m)].
Proof.
  intros W Lt First Last N.
  destruct (span_keys keyBegin keyEnd (m_map m) W First Last) as [G L].
  now apply assign_run_over_span.
Qed.

(** X10 -- Looking up a stored boundary key returns the value stored with
    it. *)
Theorem valueAt_stored_key m k x :
  well_formed (m_map m) -> In (k, x) (m_map m) -> valueAt m k = x.
Proof. apply valueAt_in. Qed.
(** X11 -- A range strictly inside one stored interval.  On a map that is
    canonical and whose last entry holds the default value, when no stored
    key lies in [[keyBegin, keyEnd]] and some stored key lies above
    [keyEnd], the key [keyEnd] holds [val] after
    [assign(keyBegin, keyEnd, val)], whereas before the call it held the
    value [keyBegin] held. *)
Theorem assign_inside_interval_reaches_keyEnd m keyBegin keyEnd val :
  well_formed (m_map m) -> is_canonical m = true -> last_is_default m ->
  keyBegin < keyEnd ->
  (forall en, In en (m_map m) -> ~ keyBegin <= fst en <= keyEnd) ->
  (exists en, In en (m_map m) /\ keyEnd < fst en) ->
  valueAt (assign m keyBegin keyEnd val) keyEnd = val
  /\ valueAt m keyEnd = valueAt m keyBegin.
Proof. intros W C S. apply assign_inside_interval. now repeat split. Qed.
End Extras.

Lemma assign_values_below_keyEnd_witness :
  valueAt (assign Scenarios.one_interval 1 2 "C"%char) 1 = "C"%char.
Proof.
  apply (assign_values_below_keyEnd Scenarios.one_interval 1 2 "C"%char 1).
  - exact well_formed_one_interval.
  - reflexivity.
  - reflexivity.
  - lia.
  - lia.
Defined.

Lemma assign_pointwise_anchored_witness :
  valueAt (assign Scenarios.test_map 15 25 "C"%char) 27
  = valueAt Scenarios.test_map 27.
Proof.
  apply (assign_pointwise_anchored Scenarios.test_map 15 25 "C"%char).
  - repeat constructor.
  - reflexivity.
  - reflexivity.
  - lia.
  - left. exists (20, "A"%char). split; [right; left; reflexivity|simpl; lia].
Defined.

Lemma assign_faults_witness :
  faults (assign_run Scenarios.one_interval 1 2 "C"%char) = [].
Proof.
  apply (assign_faults Scenarios.one_interval 1 2 "C"%char).
  - exact well_formed_one_interval.
  - reflexivity.
  - reflexivity.
  - lia.
  - discriminate.
Defined.

Lemma assign_size_growth_witness :
  (size (assign Scenarios.one_interval 1%Z 2%Z "C"%char)
   <= size Scenarios.one_interval + 2)%nat.
Proof.
  apply (assign_size_growth Scenarios.one_interval 1 2 "C"%char).
  - exact well_formed_one_interval.
  - reflexivity.
  - reflexivity.
Defined.

Lemma default_outside_span_witness :
  valueAt (assign_all Scenarios.fresh [(1, 3, "B"%char)]) 3 = "A"%char.
Proof.
  apply (default_outside_span "A"%char [(1, 3, "B"%char)] 3).
  right. intros en [<-|[<-|[]]]; simpl; lia.
Defined.

Lemma assign_same_value_noop_witness :
  assign Scenarios.one_interval 1 2 "B"%char = Scenarios.one_interval.
Proof.
  apply (assign_same_value_noop Scenarios.one_interval 1 2 "B"%char).
  - exact well_formed_one_interval.
  - reflexivity.
  - reflexivity.
  - lia.
  - intros key B. assert (key = 1) as -> by lia. reflexivity.
Defined.

Lemma assign_over_span_witness :
  m_map (assign Scenarios.one_interval 0 10 "D"%char)
  = [(0, "D"%char); (10, "A"%char)].
Proof.
  apply (assign_over_span Scenarios.one_interval 0 10 "D"%char).
  - exact well_formed_one_interval.
  - lia.
  - intros k x E. inversion E. lia.
  - intros k x E. inversion E. lia.
  - discriminate.
Defined.

Lemma valueAt_stored_key_witness :
  valueAt Scenarios.one_interval 3 = "A"%char.
Proof.
  apply (valueAt_stored_key Scenarios.one_interval 3 "A"%char).
  - exact well_formed_one_interval.
  - right. left. reflexivity.
Defined.

Lemma assign_inside_interval_reaches_keyEnd_witness :
  valueAt (assign Scenarios.one_interval 1 2 "C"%char) 2 = "C"%char
  /\ valueAt Scenarios.one_interval 2 = valueAt Scenarios.one_interval 1.
Proof.
  apply (assign_inside_interval_reaches_keyEnd Scenarios.one_interval 1 2 "C"%char).
  - exact well_formed_one_interval.
  - reflexivity.
  - reflexivity.
  - lia.
  - intros en [<-|[<-|[]]]; simpl; lia.
  - exists (3, "A"%char). split; [right; left; reflexivity|simpl; lia].
Defined.
